(** * Guahh engine: retrieval, n-gram generation and session caches

    A shallow embedding of [engine.js] (the [GuahhEngine] object) and the
    properties of its retrieval-and-generation core.

    Modelling conventions.
    - JavaScript strings are [string]s of 8-bit characters with ASCII
      semantics for case and character classes; characters above 127 are
      neither letters nor whitespace.
    - JavaScript numbers that go through [Math.log], [Math.pow] or the
      sampler are idealised as real numbers [R]; ratios of two set sizes
      (similarity, unique-word ratio) are exact rationals [Q].
    - Plain objects used as dictionaries are finite maps ([gmap]); objects
      whose key order is observable ([Object.keys]) and [Map]s are
      association lists in insertion order.  Keys are assumed not to
      collide with members of [Object.prototype].
    - [Math.random] is an indexed source of draws [nat -> Q] together with a
      counter; the network lookup is an oracle; [Date.now] is an argument.
    - The recursive retry of [generateNeuralText] is bounded by fuel:
      [None] means that the fuel ran out. *)

From Stdlib Require Import Reals.Reals Psatz QArith.QArith Qround Strings.Ascii Sorted.
From stdpp Require Import gmap strings list fin_maps pretty.

(** ** Characters and strings *)

Module Str.

Definition code (c : ascii) : nat := nat_of_ascii c.

Definition between (lo hi : nat) (c : ascii) : bool :=
  (lo <=? code c)%nat && (code c <=? hi)%nat.

(** [\s] restricted to ASCII: TAB, LF, VT, FF, CR and space. *)
Definition is_space (c : ascii) : bool := between 9 13 c || (code c =? 32)%nat.
Definition is_upper (c : ascii) : bool := between 65 90 c.
Definition is_lower (c : ascii) : bool := between 97 122 c.
Definition is_digit (c : ascii) : bool := between 48 57 c.

(** [\w] is [[A-Za-z0-9_]]. *)
Definition is_word_char (c : ascii) : bool :=
  is_lower c || is_upper c || is_digit c || (code c =? 95)%nat.

(** The class [[.,!?;:]] of the generator's punctuation regexes. *)
Definition is_punct (c : ascii) : bool :=
  existsb (λ p, (code c =? p)%nat) [46; 44; 33; 63; 59; 58]%nat.

Definition lower_char (c : ascii) : ascii :=
  if is_upper c then ascii_of_nat (code c + 32) else c.
Definition upper_char (c : ascii) : ascii :=
  if is_lower c then ascii_of_nat (code c - 32) else c.

Fixpoint map_chars (f : ascii → ascii) (s : string) : string :=
  match s with
  | EmptyString => EmptyString
  | String c s' => String (f c) (map_chars f s')
  end.

Fixpoint filter_chars (keep : ascii → bool) (s : string) : string :=
  match s with
  | EmptyString => EmptyString
  | String c s' =>
      if keep c then String c (filter_chars keep s') else filter_chars keep s'
  end.

(** [s.toLowerCase()] *)
Definition toLowerCase (s : string) : string := map_chars lower_char s.

Definition is_empty (s : string) : bool :=
  match s with EmptyString => true | String _ _ => false end.

Definition snoc (s : string) (c : ascii) : string := s +:+ String c EmptyString.

(** [s.split(/\s+/)]: the pieces between maximal whitespace runs.  A leading
    or trailing run leaves an empty piece, and the empty string splits into
    the single piece [""]: the result is never the empty array. *)
Fixpoint split_ws_from (cur : string) (in_sep : bool) (s : string) : list string :=
  match s with
  | EmptyString => [cur]
  | String c s' =>
      if is_space c then
        if in_sep then split_ws_from cur true s'
        else cur :: split_ws_from EmptyString true s'
      else split_ws_from (snoc cur c) false s'
  end.

Definition split_ws (s : string) : list string := split_ws_from EmptyString false s.

(** [s.split(sep)] for a one-character separator string. *)
Fixpoint split_char_from (sep : ascii) (cur : string) (s : string) : list string :=
  match s with
  | EmptyString => [cur]
  | String c s' =>
      if (code c =? code sep)%nat then cur :: split_char_from sep EmptyString s'
      else split_char_from sep (snoc cur c) s'
  end.

Definition split_char (sep : ascii) (s : string) : list string :=
  split_char_from sep EmptyString s.

Fixpoint trimStart (s : string) : string :=
  match s with
  | EmptyString => EmptyString
  | String c s' => if is_space c then trimStart s' else s
  end.

Fixpoint trimEnd (s : string) : string :=
  match s with
  | EmptyString => EmptyString
  | String c s' =>
      let t := trimEnd s' in
      if is_space c && is_empty t then EmptyString else String c t
  end.

(** [s.trim()] *)
Definition trim (s : string) : string := trimEnd (trimStart s).

Fixpoint starts_with (p s : string) : bool :=
  match p, s with
  | EmptyString, _ => true
  | String a p', String b s' => (code a =? code b)%nat && starts_with p' s'
  | String _ _, EmptyString => false
  end.

(** [hay.includes(needle)], which is also [/needle/.test(hay)] for a regex
    made of literal characters. *)
Fixpoint includes (needle hay : string) : bool :=
  starts_with needle hay ||
  match hay with
  | EmptyString => false
  | String _ hay' => includes needle hay'
  end.

Fixpoint drop_chars (n : nat) (s : string) : string :=
  match n, s with
  | S k, String _ s' => drop_chars k s'
  | _, _ => s
  end.

Definition head_is_word (s : string) : bool :=
  match s with
  | EmptyString => false
  | String c _ => is_word_char c
  end.

(** [s.replace(/\bPAT\b/g, rep)] for a literal [pat] that starts and ends
    with a word character.  [prev_word] tells whether the character before
    the current position is a word character; [skip] counts the characters
    of a match that are still to be consumed. *)
Fixpoint replace_word_from (pat rep : string) (prev_word : bool) (skip : nat)
    (s : string) : string :=
  match s with
  | EmptyString => EmptyString
  | String c s' =>
      match skip with
      | S k => replace_word_from pat rep (is_word_char c) k s'
      | O =>
          if negb prev_word && starts_with pat s
             && negb (head_is_word (drop_chars (String.length pat) s))
          then rep +:+ replace_word_from pat rep (is_word_char c)
                         (String.length pat - 1) s'
          else String c (replace_word_from pat rep (is_word_char c) 0 s')
      end
  end.

Definition replace_word (pat rep s : string) : string :=
  replace_word_from pat rep false 0 s.

(** [s.replace(/([.,!?;:])/g, " $1 ")] *)
Fixpoint space_punct (s : string) : string :=
  match s with
  | EmptyString => EmptyString
  | String c s' =>
      if is_punct c then String " " (String c (String " " (space_punct s')))
      else String c (space_punct s')
  end.

(** [s.replace(/\s+([.,!?;:])/g, "$1")]: a whitespace run is dropped when a
    punctuation character follows it.  [pending] buffers the current run. *)
Fixpoint fix_punct_from (pending : string) (s : string) : string :=
  match s with
  | EmptyString => pending
  | String c s' =>
      if is_space c then fix_punct_from (snoc pending c) s'
      else if is_punct c then String c (fix_punct_from EmptyString s')
      else pending +:+ String c (fix_punct_from EmptyString s')
  end.

Definition fix_punct (s : string) : string := fix_punct_from EmptyString s.

(** [s.replace(/^([a-z])/g, c => c.toUpperCase())] *)
Definition capitalize (s : string) : string :=
  match s with
  | EmptyString => EmptyString
  | String c s' => String (upper_char c) s'
  end.

(** [s.split('. ')] *)
Fixpoint split_sentences_from (cur : string) (s : string) : list string :=
  match s with
  | EmptyString => [cur]
  | String "." (String " " rest) => cur :: split_sentences_from EmptyString rest
  | String c s' => split_sentences_from (snoc cur c) s'
  end.

Definition split_sentences (s : string) : list string :=
  split_sentences_from EmptyString s.

(** [parts.join(sep)] *)
Fixpoint join (sep : string) (parts : list string) : string :=
  match parts with
  | [] => EmptyString
  | [p] => p
  | p :: rest => p +:+ sep +:+ join sep rest
  end.

End Str.

(** ** Tokenizer and query understanding *)

(** [tokenize(text)] *)
Definition tokenize (text : string) : list string :=
  if Str.is_empty text then []
  else
    filter (λ w, 2 < String.length w)
      (Str.split_ws
         (Str.filter_chars
            (λ c, Str.is_lower c || Str.is_digit c || Str.is_space c)
            (Str.toLowerCase text))).

(** [preprocessQuery(query)]; the stopword list of the source is never read. *)
Definition preprocessQuery (query : string) : string :=
  let cleaned := Str.trim (Str.toLowerCase query) in
  Str.replace_word "how's" "how is"
    (Str.replace_word "who's" "who is"
       (Str.replace_word "what's" "what is"
          (Str.replace_word "ai" "artificial intelligence" cleaned))).

(** The case-insensitive [metaPatterns], alternations written out. *)
Definition metaPatterns : list string :=
  [ "who are you"; "what are you"; "what is you"; "your name";
    "what can you do";
    "what are your purpose"; "what are your function";
    "what is your purpose"; "what is your function";
    "how do you work"; "tell me about yourself"; "introduce yourself";
    "what are guahh"; "what is guahh" ].

(** [isMetaQuery(query)] *)
Definition isMetaQuery (query : string) : bool :=
  existsb (λ p, Str.includes p (Str.toLowerCase query)) metaPatterns.

(** The long-form test [/write|story|essay|article|explain|detail|elaborate/]. *)
Definition isLongFormQuery (cleanQuery : string) : bool :=
  existsb (λ p, Str.includes p cleanQuery)
    [ "write"; "story"; "essay"; "article"; "explain"; "detail"; "elaborate" ].

(** ** Similarity *)

Definition word_set (text : string) : gset string :=
  list_to_set (Str.split_ws (Str.toLowerCase text)).

Definition ratio (a b : nat) : Q := inject_Z (Z.of_nat a) / inject_Z (Z.of_nat b).

(** [computeSimilarity(text1, text2)] *)
Definition computeSimilarity (text1 text2 : string) : Q :=
  let s1 := word_set text1 in
  let s2 := word_set text2 in
  let intersection := filter (λ x, x ∈ s2) s1 in
  let union := s1 ∪ s2 in
  if (size union =? 0)%nat then 0%Q else ratio (size intersection) (size union).

(** ** Data model *)

(** A record of the load payload: [{type: "dict", word, pos, def}] or
    [{q, a}]. *)
Inductive Item : Type :=
  | DictItem (word pos def : string)
  | QAItem (q a : string).

Record DictEntry : Type := mkDict {
  dict_word : string;
  dict_pos : string;
  dict_def : string
}.

(** An element of [memory]: [{q, a, tokens}]. *)
Record MemoryEntry : Type := mkEntry {
  doc_q : string;
  doc_a : string;
  doc_tokens : list string
}.

(** An element of the retrieval result: [{doc, score}]. *)
Record Scored : Type := mkScored {
  doc : MemoryEntry;
  score : R
}.

(** An element of [sources]: a provenance tag or a numeric score. *)
Inductive Source : Type :=
  | Tag (name : string)
  | Score (x : R).

(** The value returned by the entry point: [{text, sources}]. *)
Record Response : Type := mkResponse {
  text : string;
  sources : list Source
}.

Record HistoryRecord : Type := mkHistory {
  h_query : string;
  h_response : string;
  h_timestamp : Z
}.

(** A frequency table [{next: count}], in [Object.keys] order. *)
Abbreviation FreqTable := (list (string * nat)).

(** The fields of [GuahhEngine]; the log callback is not modelled. *)
Record Engine : Type := mkEngine {
  memory : list MemoryEntry;
  dictionary : gmap string DictEntry;
  isReady : bool;
  vocab : gset string;
  temperature : R;
  topP : R;
  responseCache : list (string * Response);
  recentOutputs : list string;
  conversationHistory : list HistoryRecord;
  wikiCache : list (string * string)
}.

(** The object literal before [init]. *)
Definition GuahhEngine : Engine :=
  {| memory := []; dictionary := ∅; isReady := false; vocab := ∅;
     temperature := 0.8; topP := 0.9;
     responseCache := []; recentOutputs := []; conversationHistory := [];
     wikiCache := [] |}.

Definition set_corpus (mem : list MemoryEntry) (dict : gmap string DictEntry)
    (voc : gset string) (st : Engine) : Engine :=
  {| memory := mem; dictionary := dict; isReady := isReady st; vocab := voc;
     temperature := temperature st; topP := topP st;
     responseCache := responseCache st; recentOutputs := recentOutputs st;
     conversationHistory := conversationHistory st; wikiCache := wikiCache st |}.

Definition set_isReady (b : bool) (st : Engine) : Engine :=
  {| memory := memory st; dictionary := dictionary st; isReady := b;
     vocab := vocab st; temperature := temperature st; topP := topP st;
     responseCache := responseCache st; recentOutputs := recentOutputs st;
     conversationHistory := conversationHistory st; wikiCache := wikiCache st |}.

Definition set_responseCache (c : list (string * Response)) (st : Engine) : Engine :=
  {| memory := memory st; dictionary := dictionary st; isReady := isReady st;
     vocab := vocab st; temperature := temperature st; topP := topP st;
     responseCache := c; recentOutputs := recentOutputs st;
     conversationHistory := conversationHistory st; wikiCache := wikiCache st |}.

Definition set_wikiCache (c : list (string * string)) (st : Engine) : Engine :=
  {| memory := memory st; dictionary := dictionary st; isReady := isReady st;
     vocab := vocab st; temperature := temperature st; topP := topP st;
     responseCache := responseCache st; recentOutputs := recentOutputs st;
     conversationHistory := conversationHistory st; wikiCache := c |}.

Definition set_history (h : list HistoryRecord) (r : list string) (st : Engine) : Engine :=
  {| memory := memory st; dictionary := dictionary st; isReady := isReady st;
     vocab := vocab st; temperature := temperature st; topP := topP st;
     responseCache := responseCache st; recentOutputs := r;
     conversationHistory := h; wikiCache := wikiCache st |}.

(** ** JavaScript [Map]: insertion-ordered, keyed by strings *)

Module JsMap.
Section ops.
Context {V : Type}.

(** [m.get(k)]; [m.has(k)] is [is_Some (get k m)]. *)
Fixpoint get (k : string) (m : list (string * V)) : option V :=
  match m with
  | [] => None
  | (k', v) :: m' => if String.eqb k k' then Some v else get k m'
  end.

(** [m.set(k, v)]: an existing key keeps its position, a new key goes
    last. *)
Fixpoint set (k : string) (v : V) (m : list (string * V)) : list (string * V) :=
  match m with
  | [] => [(k, v)]
  | (k', v') :: m' =>
      if String.eqb k k' then (k, v) :: m' else (k', v') :: set k v m'
  end.

(** [m.delete(k)] *)
Fixpoint delete (k : string) (m : list (string * V)) : list (string * V) :=
  match m with
  | [] => []
  | (k', v') :: m' => if String.eqb k k' then m' else (k', v') :: delete k m'
  end.

(** [if (m.size > cap) m.delete(m.keys().next().value)] *)
Definition evict_over (cap : nat) (m : list (string * V)) : list (string * V) :=
  if (cap <? length m)%nat then
    match m with
    | [] => m
    | (firstKey, _) :: _ => delete firstKey m
    end
  else m.
End ops.
End JsMap.

(** ** Corpus index *)

Definition load_item (st : Engine) (item : Item) : Engine :=
  match item with
  | DictItem w p d =>
      set_corpus (memory st) (<[w := mkDict w p d]> (dictionary st)) (vocab st) st
  | QAItem q a =>
      let tokens := tokenize q in
      set_corpus (memory st ++ [mkEntry q a tokens]) (dictionary st)
        (vocab st ∪ list_to_set tokens) st
  end.

(** [init(data, logCallback)]: [None] is an absent payload. *)
Definition init (data : option (list Item)) (st : Engine) : bool * Engine :=
  match data with
  | None => (false, st)
  | Some items =>
      (true, set_isReady true (foldl load_item (set_corpus [] ∅ ∅ st) items))
  end.

(** [checkDictionaryInquiry(query)] *)
Definition checkDictionaryInquiry (st : Engine) (query : string) : option string :=
  let clean :=
    Str.trim
      (Str.filter_chars (λ c, Str.is_lower c || Str.is_space c)
         (Str.toLowerCase query)) in
  let parts := Str.split_char " " clean in
  let lastWord := List.last parts EmptyString in
  let found :=
    match dictionary st !! clean with
    | Some e => Some e
    | None => dictionary st !! lastWord
    end in
  match found with
  | Some entry =>
      Some ("**" +:+ dict_word entry +:+ "** (" +:+ dict_pos entry +:+ "): "
            +:+ dict_def entry)
  | None => None
  end.

(** ** Relevance scorer *)

#[global] Instance Rlt_decision (x y : R) : Decision (x < y)%R := Rlt_dec x y.
#[global] Instance Rle_decision (x y : R) : Decision (x <= y)%R := Rle_dec x y.
#[global] Instance Rge_decision (x y : R) : Decision (x >= y)%R := Rge_dec x y.

(** The elements of [new Set(l)], in iteration order. *)
Definition unique (l : list string) : list string :=
  foldl (λ acc x, if bool_decide (x ∈ acc) then acc else acc ++ [x]) [] l.

(** [x || d] for a count that may be undefined. *)
Definition or_default (d : nat) (o : option nat) : nat :=
  match o with
  | Some (S n) => S n
  | _ => d
  end.

(** The table [df]: term -> number of entries that contain it. *)
Definition documentFrequency (mem : list MemoryEntry) : gmap string nat :=
  foldl
    (λ df entry,
       foldl (λ df t, <[t := (or_default 0 (df !! t) + 1)%nat]> df) df
         (unique (doc_tokens entry)))
    ∅ mem.

(** One step of [qTokens.forEach]: the pair is [(weightedScore, overlap)]. *)
Definition score_step (df : gmap string nat) (totalDocs : nat)
    (entry : MemoryEntry) (acc : R * nat) (t : string) : R * nat :=
  if bool_decide (t ∈ doc_tokens entry) then
    let idf := ln (INR totalDocs / INR (or_default 1 (df !! t))) in
    ((acc.1 + idf)%R, S acc.2)
  else acc.

Definition scoreEntry (df : gmap string nat) (totalDocs : nat)
    (qTokens : list string) (entry : MemoryEntry) : R :=
  let acc := foldl (score_step df totalDocs entry) (0%R, O) qTokens in
  let weightedScore := acc.1 in
  let overlap := acc.2 in
  let union := length (unique (doc_tokens entry ++ qTokens)) in
  let baseScore := if (union =? 0)%nat then 0%R else (INR overlap / INR union)%R in
  let finalScore := (baseScore * (1 + weightedScore / 10))%R in
  Rmin finalScore 1.

(** A stable sort by descending key, as [xs.sort((a, b) => key(b) - key(a))]. *)
Fixpoint insert_desc {A : Type} (key : A → R) (x : A) (l : list A) : list A :=
  match l with
  | [] => [x]
  | y :: l' =>
      if bool_decide (key x < key y)%R then y :: insert_desc key x l'
      else x :: y :: l'
  end.

Fixpoint sort_desc {A : Type} (key : A → R) (l : list A) : list A :=
  match l with
  | [] => []
  | x :: l' => insert_desc key x (sort_desc key l')
  end.


(** [retrieveRelevant(qTokens)] *)
Definition retrieveRelevant (mem : list MemoryEntry) (qTokens : list string)
    : list Scored :=
  match qTokens with
  | [] => []
  | _ =>
      let df := documentFrequency mem in
      let totalDocs := length mem in
      let scored := map (λ e, mkScored e (scoreEntry df totalDocs qTokens e)) mem in
      take 15 (sort_desc score (filter (λ s, (0.05 < score s)%R) scored))
  end.

(** ** N-gram model builder *)

(** [t[w] = (t[w] || 0) + 1] *)
Fixpoint bump (w : string) (t : FreqTable) : FreqTable :=
  match t with
  | [] => [(w, 1%nat)]
  | (w', c) :: t' =>
      if String.eqb w w' then (w', S c) :: t' else (w', c) :: bump w t'
  end.

Record NGramModel : Type := mkModel {
  bigrams : gmap string FreqTable;
  trigrams : gmap string FreqTable;
  starters : list (option string)
}.

(** [if (!tbl[k]) tbl[k] = {}; tbl[k][w] = (tbl[k][w] || 0) + 1] *)
Definition record_next (k w : string) (tbl : gmap string FreqTable)
    : gmap string FreqTable :=
  <[k := bump w (default [] (tbl !! k))]> tbl.

(** The words of the context: punctuation spaced out, split on whitespace,
    empty pieces dropped. *)
Definition context_words (sourceText : string) : list string :=
  filter (λ w, w ≠ EmptyString) (Str.split_ws (Str.space_punct sourceText)).

(** [".!?".includes(w)] *)
Definition ends_sentence (w : string) : bool := Str.includes w ".!?".

(** The body of the model-building loop at index [i]. *)
Definition model_step (words : list string) (m : NGramModel) (i : nat) : NGramModel :=
  match words !! i, words !! (i + 1)%nat, words !! (i + 2)%nat with
  | Some w1, Some w2, Some w3 =>
      let is_starter :=
        (i =? 0)%nat ||
        match words !! (i - 1)%nat with
        | Some p => ends_sentence p
        | None => false
        end in
      mkModel (record_next w1 w2 (bigrams m))
        (record_next (w1 +:+ " " +:+ w2) w3 (trigrams m))
        (if is_starter then starters m ++ [Some w1] else starters m)
  | _, _, _ => m
  end.

(** The loop [for (i = 0; i < words.length - 2; i++)], then the fallback
    starter [words[0]], which is [undefined] ([None]) when there are no
    words. *)
Definition buildModel (words : list string) : NGramModel :=
  let m := foldl (model_step words) (mkModel ∅ ∅ []) (seq 0 (length words - 2)) in
  match starters m with
  | [] => mkModel (bigrams m) (trigrams m) [words !! 0%nat]
  | _ => m
  end.

(** ** Sampler *)

(** [Math.pow] on a positive base. *)
Definition Math_pow (x y : R) : R := Rpower x y.

Definition sum_counts (t : FreqTable) : R :=
  foldl (λ a b, (a + INR b)%R) 0%R (map snd t).

Definition sum_probs (ps : list (string * R)) : R :=
  foldl (λ a b, (a + b.2)%R) 0%R ps.

(** The candidate distribution: [count / total] tempered, then normalised. *)
Definition temperedProbs (candidateFreq : FreqTable) (temperature : R)
    : list (string * R) :=
  let total := sum_counts candidateFreq in
  let probs :=
    map (λ wc, (wc.1, Math_pow (INR wc.2 / total) (1 / temperature)))
      candidateFreq in
  let probSum := sum_probs probs in
  map (λ p, (p.1, (p.2 / probSum)%R)) probs.

(** The nucleus loop: accumulate, keep, stop once [cumSum >= topP]. *)
Fixpoint nucleus_from (cumSum topP : R) (probs : list (string * R))
    : list (string * R) :=
  match probs with
  | [] => []
  | p :: rest =>
      let cumSum' := (cumSum + p.2)%R in
      p :: (if bool_decide (cumSum' >= topP)%R then []
            else nucleus_from cumSum' topP rest)
  end.

Definition nucleusOf (candidateFreq : FreqTable) (temperature topP : R)
    : list (string * R) :=
  nucleus_from 0 topP (sort_desc snd (temperedProbs candidateFreq temperature)).

(** The drawing loop: the first candidate whose running sum reaches [rand]. *)
Fixpoint draw_from (rand running : R) (nucleus : list (string * R)) : option string :=
  match nucleus with
  | [] => None
  | p :: rest =>
      let running' := (running + p.2)%R in
      if bool_decide (rand <= running')%R then Some p.1
      else draw_from rand running' rest
  end.

(** [sampleWithTemperature(candidateFreq, temperature, topP)] with the value
    [random] of the call to [Math.random]; [None] is [null]. *)
Definition sampleWithTemperature (random : Q) (candidateFreq : FreqTable)
    (temperature topP : R) : option string :=
  match candidateFreq with
  | [] => None
  | _ =>
      let nucleus := nucleusOf candidateFreq temperature topP in
      let rand := (Q2R random * sum_probs nucleus)%R in
      match draw_from rand 0 nucleus with
      | Some w => Some w
      | None => fst <$> head nucleus
      end
  end.

(** ** Output validator *)

Definition Qltb (x y : Q) : bool := negb (Qle_bool y x).

(** [validateOutput(text)] *)
Definition validateOutput (recent : list string) (text : string) : bool :=
  if (String.length text <? 10)%nat then false
  else
    let words := Str.split_ws (Str.toLowerCase text) in
    let uniqueRatio :=
      ratio (size (list_to_set words : gset string)) (length words) in
    if Qltb uniqueRatio (3 # 10) then false
    else negb (existsb (λ r, Qltb (7 # 10) (computeSimilarity text r)) recent).

(** ** Generator *)

(** String coercion of a possibly undefined word in a property key. *)
Definition key_of (w : option string) : string := default "undefined" w.

(** Truthiness of a possibly undefined string. *)
Definition truthy (w : option string) : bool :=
  match w with
  | Some s => negb (Str.is_empty s)
  | None => false
  end.

Record GenState : Type := mkGen {
  prevWord : option string;
  currentWord : option string;
  output : list (option string);
  draws : nat
}.

Definition candidatePool (m : NGramModel) (g : GenState) : option FreqTable :=
  let viaTrigram :=
    if truthy (prevWord g) then
      trigrams m !! (key_of (prevWord g) +:+ " " +:+ key_of (currentWord g))
    else None in
  match viaTrigram with
  | Some t => Some t
  | None => bigrams m !! key_of (currentWord g)
  end.

(** The generation loop; [steps] iterations remain and [i] is the loop
    index. *)
Fixpoint generateLoop (m : NGramModel) (rnd : nat → Q) (temperature topP : R)
    (steps i : nat) (g : GenState) : GenState :=
  match steps with
  | O => g
  | S steps' =>
      match candidatePool m g with
      | None | Some [] => g
      | Some pool =>
          match sampleWithTemperature (rnd (draws g)) pool temperature topP with
          | None => mkGen (prevWord g) (currentWord g) (output g) (S (draws g))
          | Some next =>
              if Str.is_empty next then
                mkGen (prevWord g) (currentWord g) (output g) (S (draws g))
              else
                let g' := mkGen (currentWord g) (Some next)
                            (output g ++ [Some next]) (S (draws g)) in
                if (15 <? i)%nat && ends_sentence next then g'
                else generateLoop m rnd temperature topP steps' (S i) g'
          end
      end
  end.

(** [starters[Math.floor(random * starters.length)]] *)
Definition pickStarter (random : Q) (sts : list (option string)) : option string :=
  mjoin (sts !! Z.to_nat (Qfloor (random * inject_Z (Z.of_nat (length sts))))).

(** [output.join(" ")]: an undefined element prints as the empty string. *)
Definition join_output (out : list (option string)) : string :=
  Str.join " " (map (default EmptyString) out).

(** One pass of [generateNeuralText] up to the quality check: the text and
    the number of draws used so far. *)
Definition generateAttempt (st : Engine) (rnd : nat → Q) (k : nat)
    (sourceText : string) (targetLength : nat) : string * nat :=
  let words := context_words sourceText in
  let m := buildModel words in
  let start := pickStarter (rnd k) (starters m) in
  let g := generateLoop m rnd (temperature st) (topP st) targetLength 0
             (mkGen (Some EmptyString) start [start] (S k)) in
  (Str.capitalize (Str.fix_punct (join_output (output g))), draws g).

(** [generateNeuralText(sourceText, targetLength)]: each unit of fuel pays
    for one attempt; a rejected attempt calls the function again. *)
Fixpoint generateNeuralText (fuel : nat) (st : Engine) (rnd : nat → Q) (k : nat)
    (sourceText : string) (targetLength : nat) : option string :=
  match fuel with
  | O => None
  | S fuel' =>
      let '(text, k') := generateAttempt st rnd k sourceText targetLength in
      if validateOutput (recentOutputs st) text then Some text
      else generateNeuralText fuel' st rnd k' sourceText targetLength
  end.

(** ** History and caches *)

(** [xs.push(x); if (xs.length > cap) xs.shift()] *)
Definition push_bounded {A : Type} (cap : nat) (x : A) (xs : list A) : list A :=
  let xs' := xs ++ [x] in
  if (cap <? length xs')%nat then tail xs' else xs'.

(** [addToHistory(query, response)] at time [now]. *)
Definition addToHistory (now : Z) (query response : string) (st : Engine) : Engine :=
  set_history
    (push_bounded 10 (mkHistory query response now) (conversationHistory st))
    (push_bounded 5 response (recentOutputs st))
    st.

(** The summary of a page extract: [null] for an empty extract or a
    disambiguation page, else the first three sentences. *)
Definition summarize (extract : string) : option string :=
  if Str.is_empty extract || Str.includes "refer to:" extract then None
  else Some (Str.join ". " (take 3 (Str.split_sentences extract)) +:+ ".").

(** [searchWikipedia(query)].  [fetch] stands for the network request:
    the extract of the page found for the query, [None] when the request
    fails, the reply does not parse or there is no such page. *)
Definition searchWikipedia (fetch : string → option string) (query : string)
    (st : Engine) : option string * Engine :=
  match JsMap.get query (wikiCache st) with
  | Some cached => (Some cached, st)
  | None =>
      match fetch query ≫= summarize with
      | None => (None, st)
      | Some summary =>
          (Some summary,
           set_wikiCache
             (JsMap.evict_over 50 (JsMap.set query summary (wikiCache st))) st)
      end
  end.

(** ** Answer pipeline *)

Definition notInitialized : Response :=
  mkResponse "Neural core not initialized." [].

Definition coreIdentity : Response :=
  mkResponse
    "I am Guahh AI V6, an advanced locally-running neural system. I use temperature sampling, nucleus sampling, and sophisticated retrieval to answer questions, generate creative text, search Wikipedia, and maintain natural conversations."
    [Tag "Core Identity"].

Definition noMatch : Response :=
  mkResponse
    "I don't have that information yet. Try rephrasing or asking about a different topic."
    [].

Definition lowConfidence : Response :=
  mkResponse
    "I found some data, but it doesn't seem relevant enough to answer confidently. Can you be more specific?"
    [].

(** The end of the local path: history, cache write, eviction above 100. *)
Definition finish_local (now : Z) (query cacheKey outputText : string)
    (relevantDocs : list Scored) (st : Engine) : Response * Engine :=
  let result := mkResponse outputText (map (λ d, Score (score d)) (take 3 relevantDocs)) in
  let st1 := addToHistory now query (text result) st in
  (result,
   set_responseCache
     (JsMap.evict_over 100 (JsMap.set cacheKey result (responseCache st1))) st1).

(** Step 5 of the entry point, once a best local match [top] is known. *)
Definition answer_local (fuel : nat) (rnd : nat → Q) (now : Z)
    (query cacheKey cleanQuery : string) (top : Scored)
    (relevantDocs : list Scored) (st : Engine) : option (Response * Engine) :=
  let isLongForm := isLongFormQuery cleanQuery in
  let maxLen := if isLongForm then 150%nat else 50%nat in
  let contextSize := if isLongForm then 15%nat else 7%nat in
  let bestScore := score top in
  if bool_decide (0.85 < bestScore)%R && negb isLongForm then
    Some (finish_local now query cacheKey (doc_a (doc top)) relevantDocs st)
  else if bool_decide (0.15 < bestScore)%R || isLongForm then
    let validDocs := take contextSize relevantDocs in
    let contextText := Str.join " " (map (λ d, doc_a (doc d)) validDocs) in
    match generateNeuralText fuel st rnd 0 contextText maxLen with
    | None => None
    | Some generated =>
        let outputText :=
          if (String.length generated <? 20)%nat then doc_a (doc top)
          else generated in
        Some (finish_local now query cacheKey outputText relevantDocs st)
    end
  else Some (lowConfidence, st).

(** [generateResponse(query)].  [fuel] bounds the attempts of the generator,
    [rnd] supplies its random draws, [now] is the clock and [fetch] the
    outcome of the network lookup.  [None]: the generator ran out of
    fuel. *)
Definition generateResponse (fuel : nat) (rnd : nat → Q) (now : Z)
    (fetch : string → option string) (query : string) (st : Engine)
    : option (Response * Engine) :=
  if negb (isReady st) then Some (notInitialized, st)
  else
    let cacheKey := Str.trim (Str.toLowerCase query) in
    match JsMap.get cacheKey (responseCache st) with
    | Some cached => Some (cached, st)
    | None =>
        let cleanQuery := preprocessQuery query in
        let qTokens := tokenize cleanQuery in
        if isMetaQuery query then
          match retrieveRelevant (memory st) qTokens with
          | top :: _ =>
              if bool_decide (0.5 < score top)%R then
                let result := mkResponse (doc_a (doc top)) [Tag "Local Memory"] in
                Some (result, addToHistory now query (text result) st)
              else Some (coreIdentity, addToHistory now query (text coreIdentity) st)
          | [] => Some (coreIdentity, addToHistory now query (text coreIdentity) st)
          end
        else
          match checkDictionaryInquiry st query with
          | Some dictResult =>
              let result := mkResponse dictResult [Tag "Dictionary"] in
              Some (result, addToHistory now query (text result) st)
          | None =>
              let '(wikiResult, st1) := searchWikipedia fetch query st in
              if truthy wikiResult then
                let result := mkResponse (default EmptyString wikiResult) [Tag "Wikipedia"] in
                let st2 := addToHistory now query (text result) st1 in
                Some (result,
                      set_responseCache
                        (JsMap.set cacheKey result (responseCache st2)) st2)
              else
                match retrieveRelevant (memory st1) qTokens with
                | [] => Some (noMatch, st1)
                | top :: rest =>
                    if bool_decide (score top < 0.1)%R then Some (noMatch, st1)
                    else
                      answer_local fuel rnd now query cacheKey cleanQuery top
                        (top :: rest) st1
                end
          end
    end.

(** ** Fallback responses *)

Definition fallbackResponses : list string :=
  [ "I don't have sufficient context to answer that confidently.";
    "That topic isn't in my current knowledge base. Try asking something else or rephrasing your question.";
    "I'm not finding relevant information for that query.";
    "My database doesn't contain enough information about that subject." ].

(** [getFallbackResponse()] with the value [random] of its call to
    [Math.random]; [None] is [undefined]. *)
Definition getFallbackResponse (random : Q) : option string :=
  fallbackResponses
    !! Z.to_nat (Qfloor (random * inject_Z (Z.of_nat (length fallbackResponses)))).

(** ** Predicates and views used in the statements *)

(** Every character of [s] satisfies [p]. *)
Fixpoint all_chars (p : ascii → bool) (s : string) : bool :=
  match s with
  | EmptyString => true
  | String c s' => p c && all_chars p s'
  end.

(** The characters of an index term: [[a-z0-9]]. *)
Definition is_term_char (c : ascii) : bool := Str.is_lower c || Str.is_digit c.

(** The corpus entry that loading a payload record appends, if any. *)
Definition entry_of_item (item : Item) : option MemoryEntry :=
  match item with
  | QAItem q a => Some (mkEntry q a (tokenize q))
  | DictItem _ _ _ => None
  end.

(** The dictionary record for [w] that a payload record carries, if any. *)
Definition definition_of_item (w : string) (item : Item) : option DictEntry :=
  match item with
  | DictItem w' p d => if String.eqb w w' then Some (mkDict w' p d) else None
  | QAItem _ _ => None
  end.



(** A draw as [Math.random] returns them: within [0, 1). *)
Definition unit_draw (r : Q) : Prop := (0 <= r)%Q ∧ (r < 1)%Q.

(** ** Reference definitions and scenarios used in the statements *)

(** The sampler's distribution as the specification words it: each raw
    count raised to [1 / temperature], then normalised. *)
Definition referenceProbs (candidateFreq : FreqTable) (temperature : R)
    : list (string * R) :=
  let powered := map (λ wc, (wc.1, Rpower (INR wc.2) (1 / temperature))) candidateFreq in
  let z := sum_probs powered in
  map (λ p, (p.1, (p.2 / z)%R)) powered.

(** Running a batch of queries one after the other with the same oracles. *)
Definition answer_all (fuel : nat) (rnd : nat → Q) (now : Z)
    (fetch : string → option string) (queries : list string) (st : Engine)
    : option Engine :=
  foldl
    (λ acc query,
       acc ≫= λ s, snd <$> generateResponse fuel rnd now fetch query s)
    (Some st) queries.

(** A lookup service that knows every topic. *)
Definition fetch_always (query : string) : option string :=
  Some ("An article about " +:+ query).

(** The queries [topic 0], ..., [topic (n-1)]. *)
Definition topics (n : nat) : list string :=
  map (λ i, "topic " +:+ pretty i) (seq 0 n).

(** An engine loaded with an empty, but present, payload. *)
Definition emptyCorpusEngine : Engine := (init (Some []) GuahhEngine).2.

(** A corpus of one entry with eight tokens, one of which a query shares. *)
Definition greekEntry : MemoryEntry :=
  mkEntry "alpha beta gamma delta epsilon zeta eta theta" "Greek letters."
    ["alpha"; "beta"; "gamma"; "delta"; "epsilon"; "zeta"; "eta"; "theta"].

Definition greekEngine : Engine :=
  (init (Some [QAItem "alpha beta gamma delta epsilon zeta eta theta"
                 "Greek letters."]) GuahhEngine).2.

(** * Properties *)

(** ** Sampler edge cases *)

(** C9: the sampler returns [null] for an empty frequency table, and for a
    table with a single candidate it returns that candidate, whatever the
    count, the temperature, the nucleus threshold and the random draw. *)
Theorem sample_empty_and_single :
  (∀ random temperature topP,
     sampleWithTemperature random [] temperature topP = None) ∧
  (∀ random w c temperature topP,
     sampleWithTemperature random [(w, c)] temperature topP = Some w).
Proof.
  split; [reflexivity|].
  intros random w c temperature topP.
  unfold sampleWithTemperature, nucleusOf, temperedProbs; simpl.
  repeat case_bool_decide; reflexivity.
Qed.

(** ** Similarity *)

Lemma split_ws_from_nonempty cur b s : Str.split_ws_from cur b s ≠ [].
Proof.
  revert cur b; induction s as [|c s IH]; intros cur b; simpl; [done|].
  destruct (Str.is_space c); [destruct b|]; auto.
Qed.

Lemma word_set_nonempty x : size (word_set x) ≠ 0%nat.
Proof.
  unfold word_set, Str.split_ws.
  pose proof (split_ws_from_nonempty EmptyString false (Str.toLowerCase x)) as H.
  destruct (Str.split_ws_from _ _ _) as [|w ws]; [done|].
  intros Hsz. apply size_empty_inv in Hsz.
  assert (w ∈ (list_to_set (w :: ws) : gset string)) as Hin by set_solver.
  rewrite (leibniz_equiv _ _ Hsz) in Hin. set_solver.
Qed.

Lemma ratio_same n : n ≠ 0%nat → (ratio n n == 1)%Q.
Proof.
  intros Hn. unfold ratio. apply Qmult_inv_r.
  intros H. unfold Qeq in H; simpl in H. lia.
Qed.

(** The word sets the code builds: equal texts have similarity 1 and texts
    whose word sets are disjoint have similarity 0. *)
Lemma computeSimilarity_self x : (computeSimilarity x x == 1)%Q.
Proof.
  unfold computeSimilarity.
  assert (filter (λ w, w ∈ word_set x) (word_set x) = word_set x) as ->.
  { apply set_eq. intros w. rewrite elem_of_filter. tauto. }
  rewrite (union_idemp_L (word_set x)).
  pose proof (word_set_nonempty x) as Hne.
  destruct (Nat.eqb_spec (size (word_set x)) 0); [done|].
  by apply ratio_same.
Qed.

Lemma computeSimilarity_disjoint x y :
  word_set x ## word_set y → (computeSimilarity x y == 0)%Q.
Proof.
  intros Hd. unfold computeSimilarity.
  assert (filter (λ w, w ∈ word_set y) (word_set x) = ∅) as ->.
  { apply set_eq. intros w. rewrite elem_of_filter. split.
    - intros [Hy Hx]. destruct (Hd w Hx Hy).
    - intros Hw. by apply not_elem_of_empty in Hw. }
  destruct (_ =? _)%nat; [reflexivity|].
  rewrite size_empty. unfold ratio, Qdiv. simpl. apply Qmult_0_l.
Qed.

(** C7: two empty strings.  Each splits into the one-element array holding
    the empty string, so the guard on an empty union is never taken and the
    similarity is 1, not 0. *)
Theorem computeSimilarity_empty_strings :
  computeSimilarity "" "" = 1%Q ∧ Str.split_ws "" = [EmptyString].
Proof. split; vm_compute; reflexivity. Qed.

(** ** Generator: retry on a rejected text *)

(** With no bigram recorded the loop stops at once, whatever the start. *)
Lemma generateLoop_no_tables rnd temperature topP steps i start sts out k :
  generateLoop (mkModel ∅ ∅ sts) rnd temperature topP steps i
    (mkGen (Some EmptyString) start out k)
  = mkGen (Some EmptyString) start out k.
Proof.
  destruct steps as [|steps]; [reflexivity|].
  simpl. unfold candidatePool. simpl. by rewrite lookup_empty.
Qed.

(** A context of fewer than three words records no n-gram: its only starter
    is the first word, or [undefined] when there is none. *)
Lemma buildModel_short words :
  (length words ≤ 2)%nat → buildModel words = mkModel ∅ ∅ [words !! 0%nat].
Proof.
  intros Hlen. unfold buildModel.
  replace (length words - 2)%nat with 0%nat by lia. reflexivity.
Qed.

(** The text of an attempt on such a context is the capitalised first word
    or the empty text. *)
Lemma generateAttempt_short st rnd k sourceText targetLength :
  (length (context_words sourceText) ≤ 2)%nat →
  (generateAttempt st rnd k sourceText targetLength).1 = EmptyString ∨
  ∃ w, context_words sourceText !! 0%nat = Some w ∧
       (generateAttempt st rnd k sourceText targetLength).1
       = Str.capitalize (Str.fix_punct w).
Proof.
  intros Hlen. unfold generateAttempt.
  rewrite (buildModel_short _ Hlen). simpl starters.
  rewrite generateLoop_no_tables. simpl.
  unfold pickStarter. simpl length.
  destruct (Z.to_nat _) as [|idx]; simpl.
  - destruct (context_words sourceText !! 0%nat) as [w|] eqn:Hw; simpl.
    + right. exists w. split; reflexivity.
    + left. reflexivity.
  - left. destruct idx; reflexivity.
Qed.

Lemma generateNeuralText_step fuel st rnd k sourceText targetLength :
  generateNeuralText (S fuel) st rnd k sourceText targetLength =
  let attempt := generateAttempt st rnd k sourceText targetLength in
  if validateOutput (recentOutputs st) attempt.1 then Some attempt.1
  else generateNeuralText fuel st rnd attempt.2 sourceText targetLength.
Proof.
  simpl. destruct (generateAttempt st rnd k sourceText targetLength). reflexivity.
Qed.

(** When the validator rejects every attempt, fuel always runs out. *)
Lemma generateNeuralText_all_rejected fuel st rnd sourceText targetLength :
  (∀ k, validateOutput (recentOutputs st)
          (generateAttempt st rnd k sourceText targetLength).1 = false) →
  ∀ k, generateNeuralText fuel st rnd k sourceText targetLength = None.
Proof.
  intros Hrej. induction fuel as [|fuel IH]; intros k; [reflexivity|].
  rewrite generateNeuralText_step. cbv zeta. rewrite Hrej. apply IH.
Qed.

(** C2: the retry is not bounded.  On the context ["Yes."] every attempt
    yields a text of fewer than 10 characters, the validator rejects it and
    the function calls itself again: no amount of fuel lets it return. *)
Theorem generateNeuralText_retry_unbounded :
  ∀ fuel st rnd k targetLength,
    generateNeuralText fuel st rnd k "Yes." targetLength = None.
Proof.
  intros fuel st rnd k targetLength. revert k.
  apply generateNeuralText_all_rejected. intros k.
  assert (length (context_words "Yes.") ≤ 2)%nat as Hlen
    by (vm_compute; lia).
  destruct (generateAttempt_short st rnd k "Yes." targetLength Hlen)
    as [->|(w & Hw & ->)]; [reflexivity|].
  vm_compute in Hw. injection Hw as <-. reflexivity.
Qed.

(** C8: a context without words.  The only starter is [undefined], the
    attempt yields the empty text, which the validator rejects, and the
    function calls itself again: it never returns the context text. *)
Theorem generateNeuralText_no_words_never_returns :
  context_words "" = [] ∧
  ∀ fuel st rnd k targetLength,
    generateNeuralText fuel st rnd k "" targetLength = None.
Proof.
  split; [vm_compute; reflexivity|].
  intros fuel st rnd k targetLength. revert k.
  apply generateNeuralText_all_rejected. intros k.
  assert (length (context_words "") ≤ 2)%nat as Hlen by (vm_compute; lia).
  destruct (generateAttempt_short st rnd k "" targetLength Hlen)
    as [->|(w & Hw & ->)]; [reflexivity|].
  vm_compute in Hw. discriminate.
Qed.

(** The same for every context without words. *)
Lemma generateNeuralText_no_words fuel st rnd k sourceText targetLength :
  context_words sourceText = [] →
  generateNeuralText fuel st rnd k sourceText targetLength = None.
Proof.
  intros Hnil. revert k.
  apply generateNeuralText_all_rejected. intros k.
  assert (length (context_words sourceText) ≤ 2)%nat as Hlen
    by (rewrite Hnil; simpl; lia).
  destruct (generateAttempt_short st rnd k sourceText targetLength Hlen)
    as [->|(w & Hw & ->)]; [reflexivity|].
  rewrite Hnil in Hw. discriminate.
Qed.

(** ** Initialisation *)

Lemma generateResponse_not_ready fuel rnd now fetch query st :
  isReady st = false →
  generateResponse fuel rnd now fetch query st = Some (notInitialized, st).
Proof. intros Hnr. unfold generateResponse. by rewrite Hnr. Qed.

Lemma answer_all_not_ready fuel rnd now fetch queries st :
  isReady st = false →
  answer_all fuel rnd now fetch queries st = Some st.
Proof.
  intros Hnr. unfold answer_all.
  induction queries as [|query queries IH]; [reflexivity|].
  simpl. by rewrite generateResponse_not_ready.
Qed.

(** C3, as the code has it: [init] returns false exactly for an absent
    payload and then leaves the engine untouched, so an engine that was
    never loaded stays not-ready, every later query is answered with the
    fixed not-initialised result and changes no state; a payload that is
    present, even empty, makes the engine ready. *)
Theorem init_false_iff_absent :
  ∀ (data : option (list Item)) (st : Engine),
    ((init data st).1 = false ↔ data = None) ∧
    (data = None → (init data st).2 = st) ∧
    (∀ items, data = Some items → isReady (init data st).2 = true) ∧
    (data = None → isReady st = false →
     ∀ fuel rnd now fetch,
       (∀ query,
          generateResponse fuel rnd now fetch query (init data st).2
          = Some (notInitialized, (init data st).2)) ∧
       (∀ queries,
          answer_all fuel rnd now fetch queries (init data st).2
          = Some (init data st).2)).
Proof.
  intros data st. repeat split.
  - destruct data; [discriminate|reflexivity].
  - by intros ->.
  - by intros ->.
  - by intros items ->.
  - intros query. subst data. by apply generateResponse_not_ready.
  - intros queries. subst data. by apply answer_all_not_ready.
Qed.

Lemma init_false_iff_absent_witness :
  generateResponse 3 (λ _, 0%Q) 0 fetch_always "what is rust"
    (init None GuahhEngine).2
  = Some (notInitialized, (init None GuahhEngine).2).
Proof.
  apply (init_false_iff_absent None GuahhEngine); reflexivity.
Defined.

(** C3 as stated fails for an empty payload: [init] returns true, the
    engine is ready, and a query is answered by the pipeline instead of the
    not-initialised result. *)
Lemma init_empty_payload_ready :
  (init (Some []) GuahhEngine).1 = true ∧
  isReady (init (Some []) GuahhEngine).2 ≠ false ∧
  (fst <$> generateResponse 3 (λ _, 0%Q) 0 (λ _, None) "who are you" emptyCorpusEngine)
  = Some coreIdentity ∧
  coreIdentity ≠ notInitialized.
Proof.
  repeat split; try reflexivity; intros H; discriminate H.
Qed.

(** ** Error results leave the session untouched *)

Lemma summarize_truthy extract summary :
  summarize extract = Some summary → truthy (Some summary) = true.
Proof.
  unfold summarize. destruct (_ || _); [discriminate|].
  intros [= <-]. simpl.
  destruct (Str.join _ _); reflexivity.
Qed.

(** When the lookup result is falsy the lookup changed nothing. *)
Lemma searchWikipedia_falsy fetch query st wikiResult st1 :
  searchWikipedia fetch query st = (wikiResult, st1) →
  truthy wikiResult = false → st1 = st.
Proof.
  unfold searchWikipedia.
  destruct (JsMap.get query (wikiCache st)) as [cached|]; [by intros [= <- <-]|].
  destruct (fetch query) as [extract|]; simpl; [|by intros [= <- <-]].
  destruct (summarize extract) as [summary|] eqn:Hsum; [|by intros [= <- <-]].
  intros [= <- <-] Hfalsy.
  rewrite (summarize_truthy _ _ Hsum) in Hfalsy. discriminate.
Qed.

Lemma finish_local_sources now query cacheKey outputText top rest st :
  sources (finish_local now query cacheKey outputText (top :: rest) st).1 ≠ [].
Proof. discriminate. Qed.

(** C10: when the entry point returns the no-match result or the
    low-confidence result, the engine state after the call is the state
    before it: response cache, conversation history, recent outputs and
    every other field. *)
Theorem error_results_keep_state :
  ∀ fuel rnd now fetch query st result st',
    generateResponse fuel rnd now fetch query st = Some (result, st') →
    result = noMatch ∨ result = lowConfidence →
    st' = st ∧
    responseCache st' = responseCache st ∧
    conversationHistory st' = conversationHistory st ∧
    recentOutputs st' = recentOutputs st.
Proof.
  intros fuel rnd now fetch query st result st' Hrun Hres.
  assert (sources result = []) as Hsrc by (destruct Hres as [->| ->]; reflexivity).
  enough (st' = st) as -> by done.
  unfold generateResponse in Hrun.
  destruct (negb (isReady st)); [by injection Hrun as _ <-|].
  destruct (JsMap.get _ (responseCache st)); [by injection Hrun as _ <-|].
  destruct (isMetaQuery query).
  { destruct (retrieveRelevant _ _) as [|top rest];
      [|case_bool_decide]; injection Hrun as <- _; discriminate Hsrc. }
  destruct (checkDictionaryInquiry st query).
  { injection Hrun as <- _; discriminate Hsrc. }
  destruct (searchWikipedia fetch query st) as [wikiResult st1] eqn:Hwiki.
  destruct (truthy wikiResult) eqn:Htruthy.
  { injection Hrun as <- _; discriminate Hsrc. }
  apply searchWikipedia_falsy in Hwiki as ->; [|done].
  destruct (retrieveRelevant _ _) as [|top rest]; [by injection Hrun as _ <-|].
  case_bool_decide; [by injection Hrun as _ <-|].
  unfold answer_local in Hrun.
  destruct (_ && _).
  { injection Hrun as <- _.
    by destruct (finish_local_sources now query
                   (Str.trim (Str.toLowerCase query)) (doc_a (doc top)) top rest st). }
  destruct (_ || _); [|by injection Hrun as _ <-].
  destruct (generateNeuralText _ _ _ _ _ _) as [generated|]; [|discriminate].
  injection Hrun as <- _.
  by destruct (finish_local_sources now query
                 (Str.trim (Str.toLowerCase query))
                 (if (String.length generated <? 20)%nat then doc_a (doc top)
                  else generated) top rest st).
Qed.

Lemma error_results_keep_state_witness :
  emptyCorpusEngine = emptyCorpusEngine ∧
  responseCache emptyCorpusEngine = responseCache emptyCorpusEngine ∧
  conversationHistory emptyCorpusEngine = conversationHistory emptyCorpusEngine ∧
  recentOutputs emptyCorpusEngine = recentOutputs emptyCorpusEngine.
Proof.
  apply (error_results_keep_state 1 (λ _, 0%Q) 0 (λ _, None) "hello there"
           emptyCorpusEngine noMatch emptyCorpusEngine).
  - reflexivity.
  - left. reflexivity.
Defined.

(** ** Bounded collections *)

Lemma push_bounded_length {A : Type} (cap : nat) (x : A) (xs : list A) :
  (length xs ≤ cap)%nat → (length (push_bounded cap x xs) ≤ cap)%nat.
Proof.
  intros Hlen. unfold push_bounded.
  destruct (Nat.ltb_spec cap (length (xs ++ [x]))) as [Hover|Hok]; [|done].
  rewrite length_app in Hover. simpl in Hover.
  destruct (xs ++ [x]) eqn:E; simpl; [lia|].
  apply (f_equal length) in E. rewrite length_app in E. simpl in E. lia.
Qed.

(** On overflow the oldest element goes and the new one is last. *)
Lemma push_bounded_fifo {A : Type} (cap : nat) (x old : A) (xs : list A) :
  length (old :: xs) = cap →
  push_bounded cap x (old :: xs) = xs ++ [x].
Proof.
  intros Hlen. unfold push_bounded.
  destruct (Nat.ltb_spec cap (length ((old :: xs) ++ [x]))) as [Hover|Hok];
    [reflexivity|].
  rewrite length_app in Hok. simpl in *. lia.
Qed.

Lemma addToHistory_bounded now query response st :
  (length (conversationHistory st) ≤ 10)%nat →
  (length (recentOutputs st) ≤ 5)%nat →
  (length (conversationHistory (addToHistory now query response st)) ≤ 10)%nat ∧
  (length (recentOutputs (addToHistory now query response st)) ≤ 5)%nat.
Proof. intros Hh Hr. split; simpl; by apply push_bounded_length. Qed.

Lemma JsMap_set_length {V : Type} k (v : V) m :
  (length (JsMap.set k v m) ≤ S (length m))%nat.
Proof.
  induction m as [|[k' v'] m IH]; simpl; [lia|].
  destruct (String.eqb k k'); simpl; lia.
Qed.

(** Write-then-evict keeps a map within its capacity, and what it evicts on
    overflow is the first, that is the oldest, entry. *)
Lemma JsMap_evict_over_length {V : Type} cap k (v : V) m :
  (length m ≤ cap)%nat →
  (length (JsMap.evict_over cap (JsMap.set k v m)) ≤ cap)%nat.
Proof.
  intros Hlen. unfold JsMap.evict_over.
  pose proof (JsMap_set_length k v m) as Hset.
  destruct (Nat.ltb_spec cap (length (JsMap.set k v m))) as [Hover|Hok]; [|done].
  destruct (JsMap.set k v m) as [|[k0 v0] m']; simpl in *; [lia|].
  rewrite String.eqb_refl. lia.
Qed.

Lemma JsMap_evict_over_fifo {V : Type} cap k0 (v0 : V) m :
  (cap < length ((k0, v0) :: m))%nat →
  JsMap.evict_over cap ((k0, v0) :: m) = m.
Proof.
  intros Hover. unfold JsMap.evict_over.
  destruct (Nat.ltb_spec cap (length ((k0, v0) :: m))); [|lia].
  simpl. by rewrite String.eqb_refl.
Qed.

Lemma searchWikipedia_bounded fetch query st :
  (length (wikiCache st) ≤ 50)%nat →
  (length (wikiCache (searchWikipedia fetch query st).2) ≤ 50)%nat.
Proof.
  intros Hlen. unfold searchWikipedia.
  destruct (JsMap.get query (wikiCache st)); [done|].
  destruct (fetch query ≫= summarize); [|done].
  simpl. by apply JsMap_evict_over_length.
Qed.

(** The local path evicts after its cache write. *)
Lemma finish_local_bounded now query cacheKey outputText relevantDocs st :
  (length (responseCache st) ≤ 100)%nat →
  (length (responseCache
             (finish_local now query cacheKey outputText relevantDocs st).2)
   ≤ 100)%nat.
Proof. intros Hlen. simpl. by apply JsMap_evict_over_length. Qed.

Lemma JsMap_set_fresh {V : Type} k (v : V) m :
  JsMap.get k m = None → JsMap.set k v m = m ++ [(k, v)].
Proof.
  induction m as [|[k' v'] m IH]; simpl; [reflexivity|].
  destruct (String.eqb k k'); [discriminate|].
  intros Hget. by rewrite IH.
Qed.

(** The Wikipedia path appends to the response cache and evicts nothing,
    whatever the size of the cache. *)
Lemma wikipedia_path_appends fuel rnd now fetch query st summary st1 :
  isReady st = true →
  JsMap.get (Str.trim (Str.toLowerCase query)) (responseCache st) = None →
  isMetaQuery query = false →
  checkDictionaryInquiry st query = None →
  searchWikipedia fetch query st = (Some summary, st1) →
  truthy (Some summary) = true →
  ∃ st2,
    generateResponse fuel rnd now fetch query st
    = Some (mkResponse summary [Tag "Wikipedia"], st2) ∧
    responseCache st2
    = responseCache st
        ++ [(Str.trim (Str.toLowerCase query), mkResponse summary [Tag "Wikipedia"])].
Proof.
  intros Hready Hmiss Hmeta Hdict Hwiki Htruthy.
  unfold generateResponse.
  rewrite Hready, Hmiss, Hmeta, Hdict, Hwiki, Htruthy. simpl negb. cbv iota.
  eexists. split; [reflexivity|]. simpl.
  assert (responseCache st1 = responseCache st) as ->.
  { unfold searchWikipedia in Hwiki.
    destruct (JsMap.get query (wikiCache st)); [by injection Hwiki as _ <-|].
    destruct (fetch query ≫= summarize); [|discriminate].
    by injection Hwiki as _ <-. }
  by apply JsMap_set_fresh.
Qed.

(** C1: the write to the response cache on the Wikipedia path is not
    followed by an eviction.  After 101 distinct queries that the lookup
    answers, the cache of a freshly loaded engine holds 101 entries, one
    more than its capacity of 100, and the oldest entry is still there. *)
Theorem wikipedia_path_exceeds_capacity :
  (λ st, (length (responseCache st), fst <$> head (responseCache st)))
    <$> answer_all 1 (λ _, 0%Q) 0 fetch_always (topics 101) emptyCorpusEngine
  = Some (101%nat, Some "topic 0").
Proof. vm_compute. reflexivity. Qed.

(** ** Sums of probabilities *)

Local Open Scope R_scope.

Lemma foldl_probs_acc (ps : list (string * R)) (acc : R) :
  foldl (λ a b, a + b.2) acc ps = acc + sum_probs ps.
Proof.
  unfold sum_probs. revert acc.
  induction ps as [|p ps IH]; intros acc; simpl; [lra|].
  rewrite IH, (IH (0 + p.2)). lra.
Qed.

Lemma sum_probs_cons (p : string * R) ps : sum_probs (p :: ps) = p.2 + sum_probs ps.
Proof. unfold sum_probs at 1. simpl. rewrite foldl_probs_acc. lra. Qed.

Lemma sum_probs_app ps qs : sum_probs (ps ++ qs) = sum_probs ps + sum_probs qs.
Proof.
  induction ps as [|p ps IH]; simpl.
  - unfold sum_probs at 2. simpl. lra.
  - rewrite !sum_probs_cons, IH. lra.
Qed.

Lemma sum_probs_scale (z : R) (ps : list (string * R)) :
  sum_probs (map (λ p, (p.1, p.2 / z)) ps) = sum_probs ps / z.
Proof.
  induction ps as [|p ps IH]; simpl.
  - unfold sum_probs. simpl. lra.
  - rewrite !sum_probs_cons, IH. simpl. lra.
Qed.

Lemma sum_probs_pos (ps : list (string * R)) :
  ps ≠ [] → Forall (λ p, 0 < p.2) ps → 0 < sum_probs ps.
Proof.
  intros Hne Hpos. destruct ps as [|p ps]; [done|]. clear Hne.
  revert p Hpos. induction ps as [|q ps IH]; intros p Hpos.
  - inversion_clear Hpos. rewrite sum_probs_cons. unfold sum_probs. simpl. lra.
  - inversion_clear Hpos as [|? ? Hp Hrest].
    rewrite sum_probs_cons. specialize (IH q Hrest). lra.
Qed.

Lemma sum_counts_cons (wc : string * nat) (t : FreqTable) :
  sum_counts (wc :: t) = INR wc.2 + sum_counts t.
Proof.
  unfold sum_counts. simpl.
  generalize (map snd t). intros l.
  assert (∀ acc, foldl (λ a b, a + INR b) acc l = acc + foldl (λ a b, a + INR b) 0 l) as Hacc.
  { induction l as [|c l IH]; intros acc; simpl; [lra|].
    rewrite IH, (IH (0 + INR c)). lra. }
  rewrite Hacc. lra.
Qed.

Lemma sum_counts_pos (t : FreqTable) :
  t ≠ [] → Forall (λ wc, (0 < wc.2)%nat) t → 0 < sum_counts t.
Proof.
  intros Hne Hpos. destruct t as [|wc t]; [done|]. clear Hne.
  revert wc Hpos. induction t as [|wc' t IH]; intros wc Hpos.
  - inversion_clear Hpos as [|? ? Hc _]. rewrite sum_counts_cons.
    unfold sum_counts. simpl. apply lt_0_INR in Hc. lra.
  - inversion_clear Hpos as [|? ? Hc Hrest]. rewrite sum_counts_cons.
    specialize (IH wc' Hrest). apply lt_0_INR in Hc. lra.
Qed.

Lemma Rpower_pos (x y : R) : 0 < Rpower x y.
Proof. unfold Rpower. apply exp_pos. Qed.

Lemma Rpower_quotient (x z y : R) :
  0 < x → 0 < z → Rpower (x / z) y = Rpower x y / Rpower z y.
Proof.
  intros Hx Hz.
  assert (0 < x / z) as Hq by (apply Rdiv_lt_0_compat; lra).
  pose proof (Rpower_mult_distr (x / z) z y Hq Hz) as Hm.
  replace (x / z * z) with x in Hm by (field; lra).
  pose proof (Rpower_pos z y). rewrite <- Hm. field. lra.
Qed.

(** ** The tempered distribution *)

Lemma temperedProbs_unfold (t : FreqTable) (T : R) :
  t ≠ [] → Forall (λ wc, (0 < wc.2)%nat) t →
  let powered := map (λ wc, (wc.1, Rpower (INR wc.2) (1 / T))) t in
  let zt := Rpower (sum_counts t) (1 / T) in
  map (λ wc, (wc.1, Math_pow (INR wc.2 / sum_counts t) (1 / T))) t
  = map (λ p, (p.1, p.2 / zt)) powered.
Proof.
  intros Hne Hpos powered zt. subst powered zt.
  rewrite map_map. apply map_ext_in. intros [w c] Hin. simpl.
  f_equal. unfold Math_pow. apply Rpower_quotient.
  - rewrite Forall_forall in Hpos.
    apply (lt_0_INR c), (Hpos (w, c)). by apply list_elem_of_In.
  - by apply sum_counts_pos.
Qed.

Lemma powered_pos (t : FreqTable) (a : R) :
  Forall (λ p, 0 < p.2) (map (λ wc : string * nat, (wc.1, Rpower (INR wc.2) a)) t).
Proof.
  apply Forall_forall. intros p Hin.
  apply list_elem_of_In, in_map_iff in Hin as (wc & <- & _). simpl. apply Rpower_pos.
Qed.

Lemma tempered_numerators_pos (t : FreqTable) (total a : R) :
  Forall (λ p, 0 < p.2)
    (map (λ wc : string * nat, (wc.1, Math_pow (INR wc.2 / total) a)) t).
Proof.
  apply Forall_forall. intros p Hin.
  apply list_elem_of_In, in_map_iff in Hin as (wc & <- & _). simpl. apply Rpower_pos.
Qed.

(** The normalised probabilities of a non-empty table sum to 1. *)
Lemma temperedProbs_sum_one (t : FreqTable) (T : R) :
  t ≠ [] → sum_probs (temperedProbs t T) = 1.
Proof.
  intros Hne. unfold temperedProbs. cbv zeta.
  set (probs := map _ t).
  assert (0 < sum_probs probs) as Hsum.
  { apply sum_probs_pos; [|apply tempered_numerators_pos].
    subst probs. destruct t; [done|discriminate]. }
  rewrite sum_probs_scale. field. lra.
Qed.

(** C4: on a non-empty table of positive counts and for a positive
    temperature, the distribution the sampler computes (normalise the
    counts, raise to [1 / temperature], normalise again) is the reference
    one (raise the raw counts to [1 / temperature], normalise); its
    probabilities sum to 1, and at temperature 1 each probability is the
    count divided by the total count. *)
Theorem temperedProbs_is_reference :
  ∀ (candidateFreq : FreqTable) (temperature : R),
    candidateFreq ≠ [] →
    Forall (λ wc, (0 < wc.2)%nat) candidateFreq →
    0 < temperature →
    temperedProbs candidateFreq temperature
    = referenceProbs candidateFreq temperature ∧
    sum_probs (temperedProbs candidateFreq temperature) = 1 ∧
    (temperature = 1 →
     temperedProbs candidateFreq temperature
     = map (λ wc, (wc.1, INR wc.2 / sum_counts candidateFreq)) candidateFreq).
Proof.
  intros t T Hne Hpos HT.
  set (a := 1 / T).
  set (powered := map (λ wc : string * nat, (wc.1, Rpower (INR wc.2) a)) t).
  set (zt := Rpower (sum_counts t) a).
  assert (0 < zt) as Hzt by apply Rpower_pos.
  assert (0 < sum_probs powered) as Hz.
  { apply sum_probs_pos; [|apply powered_pos].
    subst powered. destruct t; [done|discriminate]. }
  assert (temperedProbs t T = referenceProbs t T) as Heq.
  { unfold temperedProbs, referenceProbs. cbv zeta.
    rewrite (temperedProbs_unfold t T Hne Hpos). cbv zeta. fold a powered zt.
    rewrite sum_probs_scale, map_map. apply map_ext. intros p. simpl.
    f_equal. field. lra. }
  split; [exact Heq|]. split; [by apply temperedProbs_sum_one|].
  intros ->. rewrite Heq. unfold referenceProbs. fold a powered.
  assert (powered = map (λ wc : string * nat, (wc.1, INR wc.2)) t) as Hpow.
  { subst powered a. apply map_ext_in. intros [w c] Hin. simpl. f_equal.
    replace (1 / 1) with 1 by lra. apply Rpower_1.
    rewrite Forall_forall in Hpos.
    apply (lt_0_INR c), (Hpos (w, c)). by apply list_elem_of_In. }
  assert (sum_probs powered = sum_counts t) as Hsum.
  { rewrite Hpow. clear. induction t as [|wc t IH]; [reflexivity|].
    simpl. rewrite sum_probs_cons, sum_counts_cons, IH. reflexivity. }
  rewrite Hsum, Hpow, map_map. reflexivity.
Qed.

Lemma temperedProbs_is_reference_witness :
  temperedProbs [("cat", 3%nat); ("dog", 1%nat)] 0.8
  = referenceProbs [("cat", 3%nat); ("dog", 1%nat)] 0.8.
Proof.
  apply (temperedProbs_is_reference [("cat", 3%nat); ("dog", 1%nat)] 0.8).
  - discriminate.
  - repeat constructor.
  - lra.
Defined.

(** ** Sorting by descending key *)

Section sorting.
Context {A : Type} (key : A → R).

Lemma insert_desc_perm x l : insert_desc key x l ≡ₚ x :: l.
Proof.
  induction l as [|y l IH]; simpl; [done|].
  case_bool_decide; [|done].
  rewrite IH. apply perm_swap.
Qed.

Lemma sort_desc_perm l : sort_desc key l ≡ₚ l.
Proof.
  induction l as [|x l IH]; simpl; [done|].
  by rewrite insert_desc_perm, IH.
Qed.



End sorting.


(** ** The nucleus *)

Lemma nucleus_from_prefix c P ps :
  nucleus_from c P ps = take (length (nucleus_from c P ps)) ps.
Proof.
  revert c. induction ps as [|p ps IH]; intros c; simpl; [reflexivity|].
  case_bool_decide; simpl; [reflexivity|]. f_equal. apply IH.
Qed.

Lemma nucleus_from_head c P ps : head (nucleus_from c P ps) = head ps.
Proof. destruct ps; reflexivity. Qed.









(** ** Relevance scores *)










Lemma score_fold_no_overlap df totalDocs (e : MemoryEntry) (qTokens : list string)
    (acc : R * nat) :
  (∀ t, t ∈ qTokens → t ∉ doc_tokens e) →
  foldl (score_step df totalDocs e) acc qTokens = acc.
Proof.
  revert acc. induction qTokens as [|t qTokens IH]; intros acc Hno; simpl;
    [reflexivity|].
  unfold score_step at 2. case_bool_decide as Hin.
  - destruct (Hno t); [left|exact Hin].
  - apply IH. intros t' Ht'. apply Hno. by right.
Qed.

Lemma scoreEntry_no_overlap df totalDocs (qTokens : list string) (e : MemoryEntry) :
  (∀ t, t ∈ qTokens → t ∉ doc_tokens e) →
  scoreEntry df totalDocs qTokens e = 0.
Proof.
  intros Hno. unfold scoreEntry. rewrite (score_fold_no_overlap _ _ _ _ _ Hno).
  simpl. destruct (_ =? _)%nat.
  - rewrite Rmult_0_l. apply Rmin_left. lra.
  - unfold Rdiv. rewrite !Rmult_0_l. apply Rmin_left. lra.
Qed.



(** ** The low-confidence band *)

Lemma greek_score :
  scoreEntry (documentFrequency [greekEntry]) 1 ["alpha"] greekEntry = 0.125.
Proof.
  unfold scoreEntry.
  replace (foldl (score_step (documentFrequency [greekEntry]) 1 greekEntry)
             (0, O) ["alpha"])
    with (0 + ln (INR 1 / INR 1), 1%nat) by (vm_compute; reflexivity).
  replace (length (unique (doc_tokens greekEntry ++ ["alpha"]))) with 8%nat
    by (vm_compute; reflexivity).
  cbn [fst snd Nat.eqb].
  replace (INR 1 / INR 1) with 1 by (simpl; lra). rewrite ln_1.
  rewrite Rmin_left; simpl; lra.
Qed.

Lemma greek_retrieve :
  retrieveRelevant [greekEntry] ["alpha"]
  = [mkScored greekEntry
       (scoreEntry (documentFrequency [greekEntry]) 1 ["alpha"] greekEntry)].
Proof.
  unfold retrieveRelevant. cbn [map length].
  rewrite filter_cons, decide_True by (simpl; rewrite greek_score; lra).
  reflexivity.
Qed.

(** A best score of 0.125, between 0.1 and 0.15, on a query that is not
    long-form: the low-confidence result, and the state as it was. *)
Lemma low_confidence_scenario :
  generateResponse 1 (λ _, 0%Q) 0 (λ _, None) "alpha" greekEngine
  = Some (lowConfidence, greekEngine).
Proof.
  unfold generateResponse.
  replace (isReady greekEngine) with true by reflexivity. cbn [negb].
  replace (JsMap.get _ (responseCache greekEngine)) with (@None Response)
    by reflexivity.
  replace (isMetaQuery "alpha") with false by reflexivity.
  replace (checkDictionaryInquiry greekEngine "alpha") with (@None string)
    by reflexivity.
  replace (searchWikipedia (λ _, None) "alpha" greekEngine)
    with (@None string, greekEngine) by reflexivity.
  cbn [truthy].
  replace (memory greekEngine) with [greekEntry] by reflexivity.
  replace (tokenize (preprocessQuery "alpha")) with ["alpha"] by reflexivity.
  rewrite greek_retrieve. cbn [score].
  rewrite bool_decide_false by (rewrite greek_score; lra).
  unfold answer_local. cbn [score].
  replace (isLongFormQuery (preprocessQuery "alpha")) with false by reflexivity.
  rewrite !bool_decide_false by (rewrite greek_score; lra).
  reflexivity.
Qed.

Local Close Scope R_scope.

(** * Further properties of the engine *)

(** ** Tokenizer *)

Lemma all_chars_app p s1 s2 :
  all_chars p (s1 +:+ s2) = all_chars p s1 && all_chars p s2.
Proof.
  induction s1 as [|c s1 IH]; simpl; [reflexivity|].
  by rewrite IH, andb_assoc.
Qed.

Lemma all_chars_snoc p s c : all_chars p (Str.snoc s c) = all_chars p s && p c.
Proof. unfold Str.snoc. rewrite all_chars_app. simpl. by rewrite andb_true_r. Qed.

Lemma all_chars_filter keep s : all_chars keep (Str.filter_chars keep s) = true.
Proof.
  induction s as [|c s IH]; simpl; [reflexivity|].
  destruct (keep c) eqn:Hc; simpl; [by rewrite Hc|exact IH].
Qed.

(** The pieces of a split hold the characters of the text that are not
    whitespace. *)
Lemma split_ws_from_chars (p : ascii → bool) cur in_sep s :
  all_chars p cur = true →
  all_chars (λ c, Str.is_space c || p c) s = true →
  Forall (λ w, all_chars p w = true) (Str.split_ws_from cur in_sep s).
Proof.
  revert cur in_sep. induction s as [|c s IH]; intros cur in_sep Hcur Hs; simpl.
  - by constructor.
  - simpl in Hs. apply andb_true_iff in Hs as [Hc Hs].
    destruct (Str.is_space c) eqn:Hsp.
    + destruct in_sep; [by apply IH|]. constructor; [exact Hcur|]. by apply IH.
    + apply IH; [|exact Hs]. rewrite all_chars_snoc, Hcur. exact Hc.
Qed.

(** X1: every token that [tokenize] returns is longer than two characters
    and made of lowercase letters and digits only. *)
Theorem tokenize_terms :
  ∀ text,
    Forall (λ w, 2 < String.length w ∧ all_chars is_term_char w = true)
      (tokenize text).
Proof.
  intros text. unfold tokenize.
  destruct (Str.is_empty text); [constructor|].
  apply Forall_forall. intros w Hw.
  apply list_elem_of_filter in Hw as [Hlen Hw]. split; [exact Hlen|].
  clear Hlen. revert w Hw. apply Forall_forall.
  apply split_ws_from_chars; [reflexivity|].
  set (kept := Str.filter_chars _ _).
  assert (all_chars (λ c, Str.is_lower c || Str.is_digit c || Str.is_space c) kept
          = true) as Hkept by apply all_chars_filter.
  clearbody kept. induction kept as [|c kept IH]; [reflexivity|].
  simpl in *. apply andb_true_iff in Hkept as [Hc Hk].
  rewrite (IH Hk), andb_true_r. unfold is_term_char.
  destruct (Str.is_lower c), (Str.is_digit c), (Str.is_space c); done.
Qed.

(** ** Similarity and validation *)

Lemma ratio_range a b : (a ≤ b)%nat → b ≠ 0%nat → (0 <= ratio a b)%Q ∧ (ratio a b <= 1)%Q.
Proof.
  intros Hab Hb. destruct b as [|b]; [done|].
  unfold ratio, Qdiv, Qmult, Qinv, Qle. simpl. lia.
Qed.

(** X2: the similarity of two texts does not depend on their order, lies
    between 0 and 1, and is 1 for a text and itself. *)
Theorem computeSimilarity_laws :
  ∀ x y,
    computeSimilarity x y = computeSimilarity y x ∧
    (0 <= computeSimilarity x y)%Q ∧ (computeSimilarity x y <= 1)%Q ∧
    (computeSimilarity x x == 1)%Q.
Proof.
  intros x y.
  assert (filter (λ w, w ∈ word_set y) (word_set x)
          = filter (λ w, w ∈ word_set x) (word_set y)) as Hinter.
  { apply set_eq. intros w. rewrite !elem_of_filter. tauto. }
  split; [|split; [|split]].
  - unfold computeSimilarity. cbv zeta.
    by rewrite Hinter, (union_comm_L (word_set x)).
  - unfold computeSimilarity. cbv zeta.
    destruct (Nat.eqb_spec (size (word_set x ∪ word_set y)) 0) as [|Hne]; [done|].
    apply ratio_range; [|exact Hne].
    apply subseteq_size. intros w Hw. apply elem_of_filter in Hw as [_ Hw].
    apply elem_of_union. by left.
  - unfold computeSimilarity. cbv zeta.
    destruct (Nat.eqb_spec (size (word_set x ∪ word_set y)) 0) as [|Hne]; [done|].
    apply ratio_range; [|exact Hne].
    apply subseteq_size. intros w Hw. apply elem_of_filter in Hw as [_ Hw].
    apply elem_of_union. by left.
  - apply computeSimilarity_self.
Qed.

(** X3: the similarity of two texts is 0 exactly when their word sets
    have no word in common. *)
Theorem computeSimilarity_zero_iff :
  ∀ x y, (computeSimilarity x y == 0)%Q ↔ word_set x ## word_set y.
Proof.
  intros x y. split; [|apply computeSimilarity_disjoint].
  unfold computeSimilarity. cbv zeta.
  destruct (Nat.eqb_spec (size (word_set x ∪ word_set y)) 0) as [Hz|Hne].
  - intros _. apply size_empty_inv in Hz. intros w Hx Hy.
    assert (w ∈ word_set x ∪ word_set y) as Hw by (apply elem_of_union; by left).
    rewrite (leibniz_equiv _ _ Hz) in Hw. by apply not_elem_of_empty in Hw.
  - destruct (size (word_set x ∪ word_set y)) as [|n] eqn:Hsize; [done|].
    intros Hzero w Hx Hy.
    assert (size (filter (λ w, w ∈ word_set y) (word_set x)) = 0%nat) as Hinter.
    { revert Hzero. unfold ratio, Qdiv, Qmult, Qinv, Qeq. simpl. lia. }
    apply size_empty_inv in Hinter.
    assert (w ∈ filter (λ w, w ∈ word_set y) (word_set x)) as Hw
      by (by apply elem_of_filter).
    rewrite (leibniz_equiv _ _ Hinter) in Hw. by apply not_elem_of_empty in Hw.
Qed.

Lemma computeSimilarity_zero_iff_witness :
  (computeSimilarity "red green" "Blue  yellow" == 0)%Q.
Proof.
  apply (computeSimilarity_zero_iff "red green" "Blue  yellow").
  intros w Hx Hy. unfold word_set in Hx, Hy.
  apply elem_of_list_to_set, list_elem_of_In in Hx.
  apply elem_of_list_to_set, list_elem_of_In in Hy.
  vm_compute in Hx, Hy.
  destruct Hx as [<-|[<-|[]]]; destruct Hy as [H|[H|[]]]; discriminate H.
Defined.

(** X4: the validator rejects every text shorter than 10 characters and
    every text that is one of the recent outputs. *)
Theorem validateOutput_rejects :
  ∀ recent text,
    (String.length text < 10 ∨ text ∈ recent) →
    validateOutput recent text = false.
Proof.
  intros recent text Hcase. unfold validateOutput.
  destruct (Nat.ltb_spec (String.length text) 10) as [|Hlong]; [reflexivity|].
  destruct Hcase as [Hshort|Hin]; [lia|].
  destruct (Qltb _ (3 # 10)); [reflexivity|].
  apply negb_false_iff, existsb_exists. exists text.
  split; [by apply list_elem_of_In|].
  unfold Qltb. apply negb_true_iff.
  destruct (Qle_bool (computeSimilarity text text) (7 # 10)) eqn:Hle; [|reflexivity].
  apply Qle_bool_iff in Hle. rewrite computeSimilarity_self in Hle.
  unfold Qle in Hle. simpl in Hle. lia.
Qed.

Lemma validateOutput_rejects_witness :
  validateOutput ["The engine answers from its corpus."]
    "The engine answers from its corpus." = false.
Proof.
  apply validateOutput_rejects. right. apply list_elem_of_here.
Defined.

(** ** Loading the corpus *)

Lemma load_item_memory st item :
  memory (load_item st item) = memory st ++ option_list (entry_of_item item).
Proof. destruct item; simpl; [by rewrite app_nil_r|reflexivity]. Qed.

Lemma foldl_load_memory items st :
  memory (foldl load_item st items) = memory st ++ omap entry_of_item items.
Proof.
  revert st. induction items as [|item items IH]; intros st; simpl.
  - by rewrite app_nil_r.
  - rewrite IH, load_item_memory. destruct (entry_of_item item); simpl.
    + by rewrite <- app_assoc.
    + by rewrite app_nil_r.
Qed.

Lemma foldl_load_dictionary items st w :
  dictionary (foldl load_item st items) !! w
  = match last (omap (definition_of_item w) items) with
    | Some e => Some e
    | None => dictionary st !! w
    end.
Proof.
  revert st. induction items as [|item items IH]; intros st; simpl; [reflexivity|].
  rewrite IH. destruct item as [w' p d|q a]; simpl.
  - destruct (String.eqb_spec w w') as [->|Hne].
    + rewrite last_cons. destruct (last _); [reflexivity|].
      by rewrite lookup_insert_eq.
    + destruct (last _); [reflexivity|]. by rewrite lookup_insert_ne.
  - reflexivity.
Qed.

Lemma foldl_load_vocab items st t :
  t ∈ vocab (foldl load_item st items) ↔
  t ∈ vocab st ∨ ∃ e, e ∈ omap entry_of_item items ∧ t ∈ doc_tokens e.
Proof.
  revert st. induction items as [|item items IH]; intros st; simpl.
  - split; [by left|]. intros [H|(e & He & _)]; [done|].
    by apply not_elem_of_nil in He.
  - rewrite IH. destruct item as [w p d|q a]; simpl; [reflexivity|].
    rewrite elem_of_union, elem_of_list_to_set. split.
    + intros [[Hv|Ht]|(e & He & Hte)].
      * by left.
      * right. exists (mkEntry q a (tokenize q)). split; [left|done].
      * right. exists e. split; [by right|done].
    + intros [Hv|(e & He & Hte)]; [by left; left|].
      apply elem_of_cons in He as [->|He].
      * left. by right.
      * right. by exists e.
Qed.

Lemma load_item_session st item :
  isReady (load_item st item) = isReady st ∧
  temperature (load_item st item) = temperature st ∧
  topP (load_item st item) = topP st ∧
  responseCache (load_item st item) = responseCache st ∧
  recentOutputs (load_item st item) = recentOutputs st ∧
  conversationHistory (load_item st item) = conversationHistory st ∧
  wikiCache (load_item st item) = wikiCache st.
Proof. by destruct item. Qed.

Lemma foldl_load_session items st :
  isReady (foldl load_item st items) = isReady st ∧
  temperature (foldl load_item st items) = temperature st ∧
  topP (foldl load_item st items) = topP st ∧
  responseCache (foldl load_item st items) = responseCache st ∧
  recentOutputs (foldl load_item st items) = recentOutputs st ∧
  conversationHistory (foldl load_item st items) = conversationHistory st ∧
  wikiCache (foldl load_item st items) = wikiCache st.
Proof.
  revert st. induction items as [|item items IH]; intros st; simpl; [done|].
  destruct (IH (load_item st item)) as (-> & -> & -> & -> & -> & -> & ->).
  apply load_item_session.
Qed.

(** X5: after [init] on a present payload the corpus is exactly the
    question/answer records of the payload, in payload order, each with the
    tokens of its question; the dictionary maps a word to the last dictionary
    record of the payload for that word; the vocabulary is the set of all
    corpus tokens. *)
Theorem init_builds_index :
  ∀ items st,
    let st' := (init (Some items) st).2 in
    memory st' = omap entry_of_item items ∧
    (∀ w, dictionary st' !! w = last (omap (definition_of_item w) items)) ∧
    (∀ t, t ∈ vocab st' ↔ ∃ e, e ∈ memory st' ∧ t ∈ doc_tokens e) ∧
    Forall (λ e, doc_tokens e = tokenize (doc_q e)) (memory st').
Proof.
  intros items st st'. subst st'. simpl.
  assert (memory (foldl load_item (set_corpus [] ∅ ∅ st) items)
          = omap entry_of_item items) as Hmem by apply foldl_load_memory.
  split; [exact Hmem|]. split; [|split].
  - intros w. rewrite foldl_load_dictionary. simpl.
    destruct (last _); [reflexivity|]. apply lookup_empty.
  - intros t. rewrite foldl_load_vocab, Hmem. simpl. split.
    + intros [Hv|He]; [by apply not_elem_of_empty in Hv|exact He].
    + intros He. by right.
  - rewrite Hmem. apply Forall_forall. intros e He.
    apply list_elem_of_omap in He as (item & _ & Hitem).
    destruct item; simpl in Hitem; [discriminate|]. by injection Hitem as <-.
Qed.

Lemma load_item_set_isReady b st item :
  load_item (set_isReady b st) item = set_isReady b (load_item st item).
Proof. by destruct item. Qed.

Lemma foldl_load_set_isReady b items st :
  foldl load_item (set_isReady b st) items = set_isReady b (foldl load_item st items).
Proof.
  revert st. induction items as [|item items IH]; intros st; simpl; [reflexivity|].
  by rewrite load_item_set_isReady, IH.
Qed.

(** X6: [init] never touches the session: the response cache, the
    Wikipedia cache, the recent outputs, the history and the sampling
    settings are those of before.  So a query answered from the cache before
    a reload is still answered from the cache after it, and loading a
    payload over an engine that was loaded before gives the same engine as
    loading it directly. *)
Theorem init_keeps_session :
  ∀ data st,
    let st' := (init data st).2 in
    (responseCache st' = responseCache st ∧
     wikiCache st' = wikiCache st ∧
     recentOutputs st' = recentOutputs st ∧
     conversationHistory st' = conversationHistory st ∧
     temperature st' = temperature st ∧
     topP st' = topP st) ∧
    (∀ items fuel rnd now fetch query cached,
       data = Some items →
       JsMap.get (Str.trim (Str.toLowerCase query)) (responseCache st)
       = Some cached →
       generateResponse fuel rnd now fetch query st' = Some (cached, st')) ∧
    (∀ items, init (Some items) st' = init (Some items) st).
Proof.
  intros data st st'.
  assert (responseCache st' = responseCache st ∧
          wikiCache st' = wikiCache st ∧
          recentOutputs st' = recentOutputs st ∧
          conversationHistory st' = conversationHistory st ∧
          temperature st' = temperature st ∧
          topP st' = topP st) as Hsession.
  { subst st'. destruct data as [items|]; [|done]. simpl.
    destruct (foldl_load_session items (set_corpus [] ∅ ∅ st))
      as (_ & -> & -> & -> & -> & -> & ->). done. }
  split; [exact Hsession|]. split.
  - intros items fuel rnd now fetch query cached -> Hhit.
    unfold generateResponse.
    destruct Hsession as (Hcache & _). rewrite Hcache, Hhit. by subst st'.
  - intros items. unfold init. f_equal.
    rewrite <- !foldl_load_set_isReady. f_equal.
    destruct Hsession as (Hc & Hw & Hr & Hh & Ht & Hp).
    unfold set_isReady, set_corpus. simpl. by rewrite Hc, Hw, Hr, Hh, Ht, Hp.
Qed.

Lemma init_keeps_session_witness :
  init (Some [QAItem "what is rust" "A language."])
    (init (Some [DictItem "banana" "noun" "a fruit"]) GuahhEngine).2
  = init (Some [QAItem "what is rust" "A language."]) GuahhEngine.
Proof.
  apply (init_keeps_session (Some [DictItem "banana" "noun" "a fruit"]) GuahhEngine).
Defined.

(** ** Retrieval *)



(** What an element of the retrieval result is. *)
Lemma retrieveRelevant_elem mem qTokens s :
  s ∈ retrieveRelevant mem qTokens →
  qTokens ≠ [] ∧ doc s ∈ mem ∧ (0.05 < score s)%R ∧
  score s = scoreEntry (documentFrequency mem) (length mem) qTokens (doc s).
Proof.
  intros Hs. unfold retrieveRelevant in Hs.
  destruct qTokens as [|t qTokens]; [by apply not_elem_of_nil in Hs|].
  split; [done|].
  pose proof (elem_of_sublist _ _ _ Hs (sublist_take _ _)) as Hs'.
  rewrite (sort_desc_perm score) in Hs'.
  apply list_elem_of_filter in Hs' as [Hgt Hin].
  apply list_elem_of_In, in_map_iff in Hin as (e & <- & He).
  apply list_elem_of_In in He. by simpl.
Qed.

(** X7: retrieval answers an empty query and an empty corpus with the empty
    list, and every entry it returns shares at least one token with the
    query. *)
Theorem retrieveRelevant_needs_overlap :
  ∀ mem qTokens,
    retrieveRelevant mem [] = [] ∧
    retrieveRelevant [] qTokens = [] ∧
    Forall (λ s, ∃ t, t ∈ qTokens ∧ t ∈ doc_tokens (doc s))
      (retrieveRelevant mem qTokens).
Proof.
  intros mem qTokens. split; [reflexivity|]. split; [by destruct qTokens|].
  apply Forall_forall. intros s Hs.
  apply retrieveRelevant_elem in Hs as (_ & _ & Hgt & Hscore).
  destruct (decide (Exists (λ t, t ∈ doc_tokens (doc s)) qTokens)) as [Hex|Hno].
  - apply Exists_exists in Hex. exact Hex.
  - rewrite scoreEntry_no_overlap in Hscore.
    + rewrite Hscore in Hgt. lra.
    + intros t Ht Hin. apply Hno, Exists_exists. by exists t.
Qed.



(** ** Sampler *)

Lemma draw_from_elem rand running nucleus w :
  draw_from rand running nucleus = Some w → w ∈ map fst nucleus.
Proof.
  revert running. induction nucleus as [|p nucleus IH]; intros running; simpl;
    [discriminate|].
  case_bool_decide.
  - intros [= <-]. left.
  - intros Hw. right. by apply (IH _ Hw).
Qed.

Lemma temperedProbs_words (t : FreqTable) (T : R) :
  map fst (temperedProbs t T) = map fst t.
Proof. unfold temperedProbs. cbv zeta. by rewrite !map_map. Qed.

Lemma nucleusOf_words (t : FreqTable) (T P : R) w :
  w ∈ map fst (nucleusOf t T P) → w ∈ map fst t.
Proof.
  unfold nucleusOf. rewrite nucleus_from_prefix. intros Hw.
  apply list_elem_of_In, in_map_iff in Hw as (p & <- & Hp).
  apply list_elem_of_In in Hp.
  pose proof (elem_of_sublist _ _ _ Hp (sublist_take _ _)) as Hp'.
  rewrite (sort_desc_perm snd) in Hp'.
  rewrite <- (temperedProbs_words t T).
  apply list_elem_of_In, in_map. by apply list_elem_of_In.
Qed.


(** X9: on a non-empty table the sampler always returns a word, never
    [null], and the word is one of the candidates of the table, one that the
    nucleus kept. *)
Theorem sampleWithTemperature_returns_candidate :
  ∀ random (candidateFreq : FreqTable) (temperature topP : R),
    candidateFreq ≠ [] →
    ∃ w, sampleWithTemperature random candidateFreq temperature topP = Some w ∧
         w ∈ map fst (nucleusOf candidateFreq temperature topP) ∧
         w ∈ map fst candidateFreq.
Proof.
  intros random t T P Hne.
  assert (nucleusOf t T P ≠ []) as Hnuc.
  { unfold nucleusOf. intros Hnil.
    pose proof (nucleus_from_head 0 P (sort_desc snd (temperedProbs t T))) as Hh.
    rewrite Hnil in Hh. simpl in Hh.
    assert (sort_desc snd (temperedProbs t T) = []) as Hsorted
      by (by destruct (sort_desc snd (temperedProbs t T))).
    apply (f_equal length) in Hsorted.
    rewrite (Permutation_length (sort_desc_perm snd _)) in Hsorted.
    unfold temperedProbs in Hsorted. cbv zeta in Hsorted.
    rewrite !length_map in Hsorted. by destruct t. }
  unfold sampleWithTemperature. destruct t as [|wc t]; [done|].
  set (tbl := wc :: t) in *. set (nucleus := nucleusOf tbl T P) in *.
  destruct (draw_from _ 0 nucleus) as [w|] eqn:Hdraw.
  - exists w. split; [reflexivity|].
    apply draw_from_elem in Hdraw. split; [exact Hdraw|].
    by apply (nucleusOf_words tbl T P).
  - destruct nucleus as [|p nucleus'] eqn:Hn; [done|].
    exists p.1. split; [reflexivity|].
    assert (p.1 ∈ map fst (p :: nucleus')) as Hin by left.
    split; [exact Hin|]. apply (nucleusOf_words tbl T P). fold nucleus.
    by rewrite Hn.
Qed.

Lemma sampleWithTemperature_returns_candidate_witness :
  ∃ w, sampleWithTemperature (1 # 2) [("cat", 3); ("dog", 1)] 0.8 0.9 = Some w ∧
       w ∈ map fst (nucleusOf [("cat", 3); ("dog", 1)] 0.8 0.9) ∧
       w ∈ map fst [("cat", 3); ("dog", 1)].
Proof.
  apply sampleWithTemperature_returns_candidate. discriminate.
Defined.

(** ** N-gram model *)








(** ** Random indices *)

(** [Math.floor(random * n)] is an index below [n]. *)
Lemma random_index (r : Q) (n : nat) :
  unit_draw r → 0 < n →
  Z.to_nat (Qfloor (r * inject_Z (Z.of_nat n))) < n.
Proof.
  intros [Hr0 Hr1] Hn.
  set (N := Z.of_nat n). set (x := (r * inject_Z N)%Q).
  assert (0 < inject_Z N)%Q as HN.
  { change 0%Q with (inject_Z 0). rewrite <- Zlt_Qlt. subst N. lia. }
  assert (0 <= x)%Q as Hx0.
  { subst x. apply Qmult_le_0_compat; [exact Hr0|]. by apply Qlt_le_weak. }
  assert (x < inject_Z N)%Q as Hx1.
  { subst x. apply (Qlt_le_trans _ (1 * inject_Z N)).
    - by apply Qmult_lt_compat_r.
    - rewrite Qmult_1_l. apply Qle_refl. }
  assert (0 <= Qfloor x)%Z as Hf0.
  { change 0%Z with (Qfloor (inject_Z 0)). by apply Qfloor_resp_le. }
  assert (Qfloor x < N)%Z as Hf1.
  { rewrite Zlt_Qlt. eapply Qle_lt_trans; [apply Qfloor_le|exact Hx1]. }
  subst N. lia.
Qed.

(** X11: for a draw within [0, 1), [getFallbackResponse] returns one of its
    four fixed messages. *)
Theorem getFallbackResponse_defined :
  ∀ random,
    unit_draw random →
    ∃ message, getFallbackResponse random = Some message ∧
               message ∈ fallbackResponses.
Proof.
  intros random Hdraw. unfold getFallbackResponse.
  pose proof (random_index random (length fallbackResponses) Hdraw) as Hidx.
  destruct (lookup_lt_is_Some_2 fallbackResponses _ (Hidx ltac:(simpl; lia)))
    as [message Hm].
  exists message. split; [exact Hm|]. by apply list_elem_of_lookup_2 in Hm.
Qed.

Lemma getFallbackResponse_defined_witness :
  ∃ message, getFallbackResponse (1 # 2) = Some message ∧
             message ∈ fallbackResponses.
Proof.
  apply getFallbackResponse_defined. split; [discriminate|reflexivity].
Defined.

(** ** Generator *)









(** A table with one candidate: the sampler returns it. *)
Lemma sampleWithTemperature_single random w c (T P : R) :
  sampleWithTemperature random [(w, c)] T P = Some w.
Proof.
  unfold sampleWithTemperature, nucleusOf, temperedProbs; simpl.
  repeat case_bool_decide; reflexivity.
Qed.

Lemma generateLoop_single m rnd (T P : R) steps i g w c :
  candidatePool m g = Some [(w, c)] →
  Str.is_empty w = false →
  generateLoop m rnd T P (S steps) i g
  = let g' := mkGen (currentWord g) (Some w) (output g ++ [Some w]) (S (draws g)) in
    if (15 <? i) && ends_sentence w then g'
    else generateLoop m rnd T P steps (S i) g'.
Proof.
  intros Hpool Hw. simpl. rewrite Hpool, sampleWithTemperature_single, Hw.
  reflexivity.
Qed.

Lemma generateLoop_dead_end m rnd (T P : R) steps i g :
  candidatePool m g = None →
  generateLoop m rnd T P (S steps) i g = g.
Proof. intros Hpool. simpl. by rewrite Hpool. Qed.

(** A context in which every word has one successor: the generator walks
    it to its dead end and the validator accepts the text. *)
Lemma generation_example :
  generateNeuralText 1 GuahhEngine (λ _, 0%Q) 0 "alpha beta gamma delta" 50
  = Some "Alpha beta gamma delta".
Proof.
  rewrite generateNeuralText_step. cbv zeta.
  assert ((generateAttempt GuahhEngine (λ _, 0%Q) 0 "alpha beta gamma delta" 50).1
          = "Alpha beta gamma delta") as Htext.
  { unfold generateAttempt. cbv zeta.
    set (m := buildModel (context_words "alpha beta gamma delta")).
    replace (pickStarter 0 (starters m)) with (Some "alpha") by reflexivity.
    rewrite (generateLoop_single m _ _ _ _ _ _ "beta" 1) by reflexivity.
    cbv zeta. cbn [Nat.ltb Nat.leb andb currentWord output draws app].
    rewrite (generateLoop_single m _ _ _ _ _ _ "gamma" 1) by reflexivity.
    cbv zeta. cbn [Nat.ltb Nat.leb andb currentWord output draws app].
    rewrite (generateLoop_single m _ _ _ _ _ _ "delta" 1) by reflexivity.
    cbv zeta. cbn [Nat.ltb Nat.leb andb currentWord output draws app].
    rewrite generateLoop_dead_end by reflexivity.
    reflexivity. }
  rewrite Htext. reflexivity.
Qed.

(** X13: a text that [generateNeuralText] returns is the text of one of its
    attempts, the validator accepted it, it has at least 10 characters, and
    more fuel gives the same text. *)
Theorem generateNeuralText_returns_valid :
  ∀ fuel st rnd k sourceText targetLength text,
    generateNeuralText fuel st rnd k sourceText targetLength = Some text →
    validateOutput (recentOutputs st) text = true ∧
    10 ≤ String.length text ∧
    (∃ k', text = (generateAttempt st rnd k' sourceText targetLength).1) ∧
    (∀ fuel', fuel ≤ fuel' →
       generateNeuralText fuel' st rnd k sourceText targetLength = Some text).
Proof.
  intros fuel st rnd k sourceText targetLength text.
  revert k. induction fuel as [|fuel IH]; intros k; [discriminate|].
  rewrite generateNeuralText_step. cbv zeta.
  set (attempt := generateAttempt st rnd k sourceText targetLength).
  destruct (validateOutput (recentOutputs st) attempt.1) eqn:Hvalid.
  - intros Heq. injection Heq as Heq. rewrite <- Heq.
    split; [exact Hvalid|]. split; [|split].
    + unfold validateOutput in Hvalid.
      destruct (Nat.ltb_spec (String.length attempt.1) 10) as [|Hlong];
        [discriminate|exact Hlong].
    + by exists k.
    + intros [|fuel'] Hle; [lia|].
      rewrite generateNeuralText_step. cbv zeta. fold attempt. by rewrite Hvalid.
  - intros Hrec. destruct (IH _ Hrec) as (Hv & Hlen & Hk & Hmore).
    split; [exact Hv|]. split; [exact Hlen|]. split; [exact Hk|].
    intros [|fuel'] Hle; [lia|].
    rewrite generateNeuralText_step. cbv zeta. fold attempt. rewrite Hvalid.
    apply Hmore. lia.
Qed.

Lemma generateNeuralText_returns_valid_witness :
  validateOutput (recentOutputs GuahhEngine) "Alpha beta gamma delta" = true.
Proof.
  apply (generateNeuralText_returns_valid 1 GuahhEngine (λ _, 0%Q) 0
           "alpha beta gamma delta" 50 "Alpha beta gamma delta").
  apply generation_example.
Defined.

(** ** The Wikipedia cache *)

Lemma JsMap_get_snoc {V : Type} k (v : V) m :
  JsMap.get k m = None → JsMap.get k (m ++ [(k, v)]) = Some v.
Proof.
  induction m as [|[k' v'] m IH]; simpl; [by rewrite String.eqb_refl|].
  destruct (String.eqb k k'); [discriminate|exact IH].
Qed.

(** A fresh key written and then evicted over a capacity of at least one
    entry is still there: what goes is the first entry. *)
Lemma JsMap_set_evict_fresh {V : Type} cap k (v : V) m :
  0 < cap → JsMap.get k m = None →
  JsMap.get k (JsMap.evict_over cap (JsMap.set k v m)) = Some v ∧
  JsMap.evict_over cap (JsMap.set k v m)
  = if (cap <? S (length m)) then tail m ++ [(k, v)] else m ++ [(k, v)].
Proof.
  intros Hcap Hget. rewrite (JsMap_set_fresh k v m Hget).
  unfold JsMap.evict_over. rewrite length_app. simpl.
  replace (length m + 1) with (S (length m)) by lia.
  destruct (Nat.ltb_spec cap (S (length m))) as [Hover|Hok].
  - destruct m as [|[k0 v0] m]; simpl in *; [lia|].
    rewrite String.eqb_refl. split; [|reflexivity].
    destruct (String.eqb k k0); [discriminate|]. by apply JsMap_get_snoc.
  - split; [|reflexivity]. by apply JsMap_get_snoc.
Qed.

Lemma searchWikipedia_frame fetch query st :
  (searchWikipedia fetch query st).2
  = set_wikiCache (wikiCache (searchWikipedia fetch query st).2) st.
Proof.
  unfold searchWikipedia.
  destruct (JsMap.get query (wikiCache st)); [by destruct st|].
  destruct (fetch query ≫= summarize); [reflexivity|by destruct st].
Qed.

(** X14: a lookup that returned a summary is cached: asking the same query
    again returns the same summary and changes nothing, whatever the network
    would answer. *)
Theorem searchWikipedia_repeat :
  ∀ fetch query st summary st1,
    searchWikipedia fetch query st = (Some summary, st1) →
    ∀ fetch', searchWikipedia fetch' query st1 = (Some summary, st1).
Proof.
  intros fetch query st summary st1 Hfirst fetch'.
  assert (JsMap.get query (wikiCache st1) = Some summary) as Hhit.
  { unfold searchWikipedia in Hfirst.
    destruct (JsMap.get query (wikiCache st)) as [cached|] eqn:Hget.
    - by injection Hfirst as <- <-.
    - destruct (fetch query ≫= summarize) as [s|]; [|discriminate].
      injection Hfirst as <- <-. simpl.
      apply JsMap_set_evict_fresh; [lia|exact Hget]. }
  unfold searchWikipedia. by rewrite Hhit.
Qed.

Lemma searchWikipedia_repeat_witness :
  searchWikipedia (λ _, None) "rust"
    (searchWikipedia fetch_always "rust" GuahhEngine).2
  = (Some "An article about rust.", (searchWikipedia fetch_always "rust" GuahhEngine).2).
Proof.
  apply (searchWikipedia_repeat fetch_always "rust" GuahhEngine). reflexivity.
Defined.

(** X15: a lookup changes no field of the engine but the Wikipedia cache; a
    lookup without a result changes nothing at all; a cache of at most 50
    entries stays so, and when a new summary overflows it the oldest entry
    is the one dropped. *)
Theorem searchWikipedia_cache_policy :
  ∀ fetch query st,
    let result := (searchWikipedia fetch query st).1 in
    let st1 := (searchWikipedia fetch query st).2 in
    st1 = set_wikiCache (wikiCache st1) st ∧
    (result = None → st1 = st) ∧
    (length (wikiCache st) ≤ 50 → length (wikiCache st1) ≤ 50) ∧
    (∀ summary,
       JsMap.get query (wikiCache st) = None → result = Some summary →
       wikiCache st1
       = if (50 <? S (length (wikiCache st)))
         then tail (wikiCache st) ++ [(query, summary)]
         else wikiCache st ++ [(query, summary)]).
Proof.
  intros fetch query st result st1. subst result st1.
  split; [apply searchWikipedia_frame|].
  unfold searchWikipedia.
  destruct (JsMap.get query (wikiCache st)) as [cached|] eqn:Hget; simpl.
  - repeat split; try done.
  - destruct (fetch query ≫= summarize) as [s|]; simpl.
    + split; [discriminate|]. split.
      * intros Hlen. by apply JsMap_evict_over_length.
      * intros summary _ [= <-]. apply JsMap_set_evict_fresh; [lia|exact Hget].
    + repeat split; try done.
Qed.

Lemma searchWikipedia_cache_policy_witness :
  wikiCache (searchWikipedia fetch_always "rust" GuahhEngine).2
  = [("rust", "An article about rust.")].
Proof.
  apply (proj2 (proj2 (proj2
           (searchWikipedia_cache_policy fetch_always "rust" GuahhEngine)))
           "An article about rust."); reflexivity.
Defined.

(** ** The paths of the entry point *)

(** Which path a call took, what it returned and what it did to the
    engine. *)
Lemma generateResponse_paths fuel rnd now fetch query st r st' :
  generateResponse fuel rnd now fetch query st = Some (r, st') →
  let key := Str.trim (Str.toLowerCase query) in
  let st1 := (searchWikipedia fetch query st).2 in
  (isReady st = false ∧ st' = st ∧ r = notInitialized) ∨
  (isReady st = true ∧ JsMap.get key (responseCache st) = Some r ∧ st' = st) ∨
  (isReady st = true ∧ JsMap.get key (responseCache st) = None ∧
   (((isMetaQuery query = true ∨ is_Some (checkDictionaryInquiry st query)) ∧
     st' = addToHistory now query (text r) st ∧
     ∃ tag, sources r = [Tag tag] ∧ tag ≠ "Wikipedia") ∨
    (isMetaQuery query = false ∧ checkDictionaryInquiry st query = None ∧
     ((sources r = [Tag "Wikipedia"] ∧
       st' = set_responseCache (JsMap.set key r (responseCache st1))
               (addToHistory now query (text r) st1)) ∨
      ((r = noMatch ∨ r = lowConfidence) ∧ st' = st) ∨
      ((∃ x xs, sources r = Score x :: xs) ∧
       st' = set_responseCache
               (JsMap.evict_over 100 (JsMap.set key r (responseCache st)))
               (addToHistory now query (text r) st)))))).
Proof.
  intros Hrun key st1. unfold generateResponse in Hrun. fold key in Hrun.
  destruct (isReady st) eqn:Hready; simpl in Hrun;
    [|left; by injection Hrun as <- <-].
  right.
  destruct (JsMap.get key (responseCache st)) as [cached|] eqn:Hget;
    [left; by injection Hrun as <- <-|].
  right. split; [reflexivity|]. split; [reflexivity|].
  destruct (isMetaQuery query) eqn:Hmeta.
  { left. split; [by left|].
    destruct (retrieveRelevant _ _) as [|top rest];
      [|case_bool_decide]; injection Hrun as <- <-;
      (split; [reflexivity|]); eexists; (split; [reflexivity|discriminate]). }
  destruct (checkDictionaryInquiry st query) as [dictResult|] eqn:Hdict.
  { left. split; [by right|]. injection Hrun as <- <-.
    split; [reflexivity|]. eexists. split; [reflexivity|discriminate]. }
  right. split; [reflexivity|]. split; [reflexivity|].
  subst st1.
  destruct (searchWikipedia fetch query st) as [wikiResult st1] eqn:Hwiki.
  destruct (truthy wikiResult) eqn:Htruthy.
  { left. injection Hrun as <- <-. by split. }
  right. apply searchWikipedia_falsy in Hwiki as ->; [|done].
  destruct (retrieveRelevant _ _) as [|top rest];
    [left; injection Hrun as <- <-; split; [by left|reflexivity]|].
  case_bool_decide;
    [left; injection Hrun as <- <-; split; [by left|reflexivity]|].
  unfold answer_local in Hrun.
  destruct (_ && _).
  { right. injection Hrun as <- <-. split; [|reflexivity].
    simpl. by eexists _, _. }
  destruct (_ || _);
    [|left; injection Hrun as <- <-; split; [by right|reflexivity]].
  destruct (generateNeuralText _ _ _ _ _ _) as [generated|]; [|discriminate].
  right. injection Hrun as <- <-. split; [|reflexivity].
  simpl. by eexists _, _.
Qed.

Lemma push_bounded_last {A : Type} (cap : nat) (x : A) (xs : list A) :
  0 < cap → last (push_bounded cap x xs) = Some x.
Proof.
  intros Hcap. unfold push_bounded.
  destruct (Nat.ltb_spec cap (length (xs ++ [x]))) as [Hover|Hok];
    [|apply last_snoc].
  destruct xs as [|y xs]; simpl in *; [lia|]. apply last_snoc.
Qed.

(** X16: a call never changes the corpus or the settings: the entries, the
    dictionary, the vocabulary, the ready flag, the temperature and the
    nucleus threshold after the call are those of before. *)
Theorem generateResponse_keeps_corpus :
  ∀ fuel rnd now fetch query st r st',
    generateResponse fuel rnd now fetch query st = Some (r, st') →
    memory st' = memory st ∧ dictionary st' = dictionary st ∧
    vocab st' = vocab st ∧ isReady st' = isReady st ∧
    temperature st' = temperature st ∧ topP st' = topP st.
Proof.
  intros fuel rnd now fetch query st r st' Hrun.
  pose proof (searchWikipedia_frame fetch query st) as Hframe.
  apply generateResponse_paths in Hrun. cbv zeta in Hrun.
  destruct Hrun as [(_ & -> & _)|[(_ & _ & ->)|(_ & _ & Hpath)]]; [done|done|].
  destruct Hpath as [(_ & -> & _)|(_ & _ & [(_ & ->)|[(_ & ->)|(_ & ->)]])];
    try done.
  simpl. by rewrite Hframe.
Qed.

Lemma generateResponse_keeps_corpus_witness :
  memory (addToHistory 7 "who are you" (text coreIdentity) emptyCorpusEngine)
  = memory emptyCorpusEngine.
Proof.
  apply (generateResponse_keeps_corpus 1 (λ _, 0%Q) 7 (λ _, None) "who are you"
           emptyCorpusEngine coreIdentity).
  reflexivity.
Defined.

Lemma searchWikipedia_session fetch query st :
  responseCache (searchWikipedia fetch query st).2 = responseCache st ∧
  conversationHistory (searchWikipedia fetch query st).2 = conversationHistory st ∧
  recentOutputs (searchWikipedia fetch query st).2 = recentOutputs st ∧
  isReady (searchWikipedia fetch query st).2 = isReady st.
Proof. rewrite searchWikipedia_frame. done. Qed.

(** X17: a call keeps the bounded collections it maintains within their
    capacities: a history of at most 10 records, at most 5 recent outputs
    and a Wikipedia cache of at most 50 entries stay so. *)
Theorem generateResponse_keeps_bounds :
  ∀ fuel rnd now fetch query st r st',
    generateResponse fuel rnd now fetch query st = Some (r, st') →
    (length (conversationHistory st) ≤ 10 →
     length (conversationHistory st') ≤ 10) ∧
    (length (recentOutputs st) ≤ 5 → length (recentOutputs st') ≤ 5) ∧
    (length (wikiCache st) ≤ 50 → length (wikiCache st') ≤ 50).
Proof.
  intros fuel rnd now fetch query st r st' Hrun.
  pose proof (searchWikipedia_session fetch query st) as (_ & Hh & Hr & _).
  pose proof (searchWikipedia_bounded fetch query st) as Hw.
  apply generateResponse_paths in Hrun. cbv zeta in Hrun.
  destruct Hrun as [(_ & -> & _)|[(_ & _ & ->)|(_ & _ & Hpath)]]; [done|done|].
  destruct Hpath as [(_ & -> & _)|(_ & _ & [(_ & ->)|[(_ & ->)|(_ & ->)]])];
    simpl; try done.
  - split; [|split; [|done]]; apply push_bounded_length.
  - rewrite Hh, Hr. split; [|split; [|exact Hw]]; apply push_bounded_length.
  - split; [|split; [|done]]; apply push_bounded_length.
Qed.

Lemma generateResponse_keeps_bounds_witness :
  length (wikiCache (addToHistory 7 "who are you" (text coreIdentity)
                       emptyCorpusEngine)) ≤ 50.
Proof.
  apply (generateResponse_keeps_bounds 1 (λ _, 0%Q) 7 (λ _, None) "who are you"
           emptyCorpusEngine coreIdentity).
  - reflexivity.
  - simpl. lia.
Defined.

Lemma generateResponse_cache_hit fuel rnd now fetch query st r :
  isReady st = true →
  JsMap.get (Str.trim (Str.toLowerCase query)) (responseCache st) = Some r →
  generateResponse fuel rnd now fetch query st = Some (r, st).
Proof. intros Hready Hhit. unfold generateResponse. by rewrite Hready, Hhit. Qed.

(** X18: an answer that came from Wikipedia or from the local corpus is
    served from the cache afterwards: any later query with the same
    lowercased, trimmed text gets the same result back and leaves the
    engine as it is, whatever the clock, the network and the random source
    are then. *)
Theorem generateResponse_cached_repeat :
  ∀ fuel rnd now fetch query st r st',
    isReady st = true →
    isMetaQuery query = false →
    checkDictionaryInquiry st query = None →
    generateResponse fuel rnd now fetch query st = Some (r, st') →
    r ≠ noMatch → r ≠ lowConfidence →
    ∀ fuel' rnd' now' fetch' query',
      Str.trim (Str.toLowerCase query') = Str.trim (Str.toLowerCase query) →
      generateResponse fuel' rnd' now' fetch' query' st' = Some (r, st').
Proof.
  intros fuel rnd now fetch query st r st' Hready Hmeta Hdict Hrun Hnm Hlc
    fuel' rnd' now' fetch' query' Hkey.
  pose proof (searchWikipedia_session fetch query st) as (Hc & _ & _ & Hr).
  apply generateResponse_paths in Hrun. cbv zeta in Hrun.
  destruct Hrun as [(Hnr & _)|[(_ & Hhit & ->)|(_ & Hmiss & Hpath)]].
  - congruence.
  - apply generateResponse_cache_hit; [exact Hready|]. by rewrite Hkey.
  - destruct Hpath as [([Hm|[d Hd]] & _)|(_ & _ & Hpath)]; [congruence|congruence|].
    destruct Hpath as [(_ & ->)|[([->| ->] & _)|(_ & ->)]]; try done.
    + apply generateResponse_cache_hit; simpl; [congruence|].
      rewrite Hkey, Hc, (JsMap_set_fresh _ _ _ Hmiss). by apply JsMap_get_snoc.
    + apply generateResponse_cache_hit; simpl; [exact Hready|].
      rewrite Hkey. apply JsMap_set_evict_fresh; [lia|exact Hmiss].
Qed.

Lemma generateResponse_cached_repeat_witness :
  generateResponse 0 (λ _, (1 # 3)%Q) 99 (λ _, None) "  TOPIC 1 "
    (set_responseCache
       [("topic 1", mkResponse "An article about topic 1." [Tag "Wikipedia"])]
       (addToHistory 7 "topic 1" "An article about topic 1." 
          (searchWikipedia fetch_always "topic 1" emptyCorpusEngine).2))
  = Some (mkResponse "An article about topic 1." [Tag "Wikipedia"],
          set_responseCache
            [("topic 1", mkResponse "An article about topic 1." [Tag "Wikipedia"])]
            (addToHistory 7 "topic 1" "An article about topic 1." 
               (searchWikipedia fetch_always "topic 1" emptyCorpusEngine).2)).
Proof.
  apply (generateResponse_cached_repeat 1 (λ _, 0%Q) 7 fetch_always "topic 1"
           emptyCorpusEngine); try reflexivity; discriminate.
Defined.

(** X19: a call that answers a query anew (engine ready, no cache hit,
    neither the no-match nor the low-confidence result) appends exactly one
    record (query, answer text, time) to the history and the answer text to
    the recent outputs, dropping the oldest element on overflow, so the new
    ones are last; every other call (engine not ready, cache hit, no match,
    low confidence) leaves both as they are. *)
Theorem generateResponse_history :
  ∀ fuel rnd now fetch query st r st',
    generateResponse fuel rnd now fetch query st = Some (r, st') →
    let key := Str.trim (Str.toLowerCase query) in
    (isReady st = true → JsMap.get key (responseCache st) = None →
     r ≠ noMatch → r ≠ lowConfidence →
     conversationHistory st'
     = push_bounded 10 (mkHistory query (text r) now) (conversationHistory st) ∧
     recentOutputs st' = push_bounded 5 (text r) (recentOutputs st) ∧
     last (conversationHistory st') = Some (mkHistory query (text r) now) ∧
     last (recentOutputs st') = Some (text r)) ∧
    (isReady st = false ∨ is_Some (JsMap.get key (responseCache st)) ∨
     r = noMatch ∨ r = lowConfidence →
     conversationHistory st' = conversationHistory st ∧
     recentOutputs st' = recentOutputs st).
Proof.
  intros fuel rnd now fetch query st r st' Hrun key.
  pose proof (searchWikipedia_session fetch query st) as (_ & Hh & Hr & _).
  apply generateResponse_paths in Hrun. cbv zeta in Hrun. fold key in Hrun.
  assert (∀ st0,
            conversationHistory st0 = conversationHistory st →
            recentOutputs st0 = recentOutputs st →
            let st2 := addToHistory now query (text r) st0 in
            conversationHistory st2
            = push_bounded 10 (mkHistory query (text r) now) (conversationHistory st) ∧
            recentOutputs st2 = push_bounded 5 (text r) (recentOutputs st) ∧
            last (conversationHistory st2) = Some (mkHistory query (text r) now) ∧
            last (recentOutputs st2) = Some (text r)) as Hrecord.
  { intros st0 H1 H2. simpl. rewrite H1, H2.
    repeat split; apply push_bounded_last; lia. }
  destruct Hrun as [(Hnr & -> & ->)|[(_ & Hhit & ->)|(Hready & Hmiss & Hpath)]].
  - split; [congruence|done].
  - split; [congruence|done].
  - destruct Hpath as [(_ & -> & tag & Htag & _)|(_ & _ & Hpath)].
    + split; [intros; by apply Hrecord|].
      intros [?|[[? ?]|[->| ->]]]; try congruence; cbn in Htag; discriminate Htag.
    + destruct Hpath as [(Hsrc & ->)|[(Herr & ->)|((x & xs & Hsrc) & ->)]].
      * split; [intros; by apply (Hrecord _ Hh Hr)|].
        intros [?|[[? ?]|[->| ->]]]; try congruence; cbn in Hsrc; discriminate Hsrc.
      * split; [|done]. intros _ _ Hnm Hlc. by destruct Herr.
      * split; [intros; by apply Hrecord|].
        intros [?|[[? ?]|[->| ->]]]; try congruence; cbn in Hsrc; discriminate Hsrc.
Qed.

Lemma generateResponse_history_witness :
  last (conversationHistory
          (addToHistory 7 "who are you" (text coreIdentity) emptyCorpusEngine))
  = Some (mkHistory "who are you" (text coreIdentity) 7).
Proof.
  apply (generateResponse_history 1 (λ _, 0%Q) 7 (λ _, None) "who are you"
           emptyCorpusEngine coreIdentity); try reflexivity; discriminate.
Defined.

(** ** The response cache and the best match *)

(** X20: what a call does to the response cache.  Answers tagged Local
    Memory, Core Identity or Dictionary are not cached; an answer with
    numeric sources, that is one from the local corpus, is written and then
    the cache is cut back to 100 entries by dropping its oldest entry; no
    call adds more than one entry. *)
Theorem generateResponse_cache_policy :
  ∀ fuel rnd now fetch query st r st',
    generateResponse fuel rnd now fetch query st = Some (r, st') →
    let key := Str.trim (Str.toLowerCase query) in
    (∀ tag, sources r = [Tag tag] → tag ≠ "Wikipedia" →
            responseCache st' = responseCache st) ∧
    (∀ x xs, sources r = Score x :: xs →
             (length (responseCache st) ≤ 100 →
              length (responseCache st') ≤ 100) ∧
             (isReady st = true → JsMap.get key (responseCache st) = None →
              responseCache st'
              = if 100 <? S (length (responseCache st))
                then tail (responseCache st) ++ [(key, r)]
                else responseCache st ++ [(key, r)])) ∧
    length (responseCache st') ≤ S (length (responseCache st)).
Proof.
  intros fuel rnd now fetch query st r st' Hrun key.
  pose proof (searchWikipedia_session fetch query st) as (Hc & _).
  apply generateResponse_paths in Hrun. cbv zeta in Hrun. fold key in Hrun.
  destruct Hrun as [(Hnr & -> & _)|[(_ & Hhit & ->)|(_ & Hmiss & Hpath)]].
  - split; [done|]. split; [|lia]. intros x xs _. split; [done|congruence].
  - split; [done|]. split; [|lia]. intros x xs _. split; [done|congruence].
  - destruct Hpath as [(_ & -> & tag & Htag & _)|(_ & _ & Hpath)].
    { split; [done|]. split; [|simpl; lia]. intros x xs Hsrc. congruence. }
    destruct Hpath as [(Hsrc & ->)|[(Herr & ->)|((x0 & xs0 & Hsrc) & ->)]].
    + split; [intros tag Htag; congruence|]. split; [intros; congruence|].
      simpl. rewrite Hc. apply JsMap_set_length.
    + split; [done|]. split; [|lia].
      intros x xs Hsrc. destruct Herr as [-> | ->]; discriminate Hsrc.
    + split.
      { intros tag Htag. congruence. }
      split.
      * intros x xs _. simpl. split.
        -- by apply JsMap_evict_over_length.
        -- intros _ _. apply JsMap_set_evict_fresh; [lia|exact Hmiss].
      * simpl. unfold JsMap.evict_over.
        pose proof (JsMap_set_length key r (responseCache st)) as Hset.
        destruct (_ <? _); [|exact Hset].
        destruct (JsMap.set key r (responseCache st)) as [|[k0 v0] m]; simpl in *;
          [lia|]. rewrite String.eqb_refl. lia.
Qed.

Lemma generateResponse_cache_policy_witness :
  responseCache (addToHistory 7 "who are you" (text coreIdentity) emptyCorpusEngine)
  = responseCache emptyCorpusEngine.
Proof.
  apply (proj1 (generateResponse_cache_policy 1 (λ _, 0%Q) 7 (λ _, None)
                  "who are you" emptyCorpusEngine coreIdentity _ eq_refl)
           "Core Identity").
  - reflexivity.
  - discriminate.
Defined.








(** X22: on windows within their capacities [addToHistory] keeps the last
    10 records and the last 5 outputs of what it is given plus the new
    element: nothing is lost below the capacity, and above it only the
    oldest element goes. *)
Theorem addToHistory_keeps_last :
  ∀ now query response st,
    length (conversationHistory st) ≤ 10 →
    length (recentOutputs st) ≤ 5 →
    let st' := addToHistory now query response st in
    let records := conversationHistory st ++ [mkHistory query response now] in
    let outputs := recentOutputs st ++ [response] in
    conversationHistory st' = drop (length records - 10) records ∧
    recentOutputs st' = drop (length outputs - 5) outputs ∧
    length (conversationHistory st') ≤ 10 ∧ length (recentOutputs st') ≤ 5 ∧
    responseCache st' = responseCache st ∧ wikiCache st' = wikiCache st.
Proof.
  intros now query response st Hh Hr st' records outputs.
  assert (∀ (A : Type) (cap : nat) (x : A) (xs : list A),
            length xs ≤ cap →
            push_bounded cap x xs
            = drop (length (xs ++ [x]) - cap) (xs ++ [x])) as Hpush.
  { intros A cap x xs Hlen. unfold push_bounded.
    rewrite length_app in *. simpl.
    destruct (Nat.ltb_spec cap (length xs + 1)) as [Hover|Hok].
    - replace (length xs + 1 - cap) with 1 by lia. by destruct (xs ++ [x]).
    - replace (length xs + 1 - cap) with 0 by lia. reflexivity. }
  subst st' records outputs. simpl.
  rewrite (Hpush _ 10 _ _ Hh), (Hpush _ 5 _ _ Hr).
  repeat split; rewrite length_drop; lia.
Qed.

Lemma addToHistory_keeps_last_witness :
  recentOutputs (addToHistory 3 "q6" "six"
                   (set_history [] ["one"; "two"; "three"; "four"; "five"]
                      GuahhEngine))
  = drop (length (["one"; "two"; "three"; "four"; "five"] ++ ["six"]) - 5)
      (["one"; "two"; "three"; "four"; "five"] ++ ["six"]).
Proof.
  apply (addToHistory_keeps_last 3 "q6" "six"
           (set_history [] ["one"; "two"; "three"; "four"; "five"] GuahhEngine));
    simpl; lia.
Defined.



(** ** Greedy sampling *)



(** ** Dictionary answers *)

Lemma is_lower_not_upper c : Str.is_lower c = true → Str.is_upper c = false.
Proof.
  unfold Str.is_lower, Str.is_upper, Str.between.
  destruct (Nat.leb_spec 97 (Str.code c)), (Nat.leb_spec (Str.code c) 122),
    (Nat.leb_spec 65 (Str.code c)), (Nat.leb_spec (Str.code c) 90);
    simpl; try done; lia.
Qed.

Lemma is_lower_not_space c : Str.is_lower c = true → Str.is_space c = false.
Proof.
  unfold Str.is_lower, Str.is_space, Str.between.
  destruct (Nat.leb_spec 97 (Str.code c)), (Nat.leb_spec (Str.code c) 122),
    (Nat.leb_spec 9 (Str.code c)), (Nat.leb_spec (Str.code c) 13),
    (Nat.eqb_spec (Str.code c) 32); simpl; try done; lia.
Qed.

(** A word of lowercase letters is its own cleaned form. *)
Lemma lowercase_word_clean w :
  all_chars Str.is_lower w = true →
  Str.toLowerCase w = w ∧
  Str.filter_chars (λ c, Str.is_lower c || Str.is_space c) w = w ∧
  Str.trim w = w.
Proof.
  intros Hw. split; [|split].
  - unfold Str.toLowerCase.
    induction w as [|c w IH]; [reflexivity|]. simpl in *.
    apply andb_true_iff in Hw as [Hc Hw].
    rewrite (IH Hw). unfold Str.lower_char.
    by rewrite (is_lower_not_upper c Hc).
  - induction w as [|c w IH]; [reflexivity|]. simpl in *.
    apply andb_true_iff in Hw as [Hc Hw]. by rewrite Hc, (IH Hw).
  - unfold Str.trim.
    assert (Str.trimStart w = w) as ->.
    { destruct w as [|c w]; [reflexivity|]. simpl in *.
      apply andb_true_iff in Hw as [Hc _]. by rewrite (is_lower_not_space c Hc). }
    induction w as [|c w IH]; [reflexivity|]. simpl in *.
    apply andb_true_iff in Hw as [Hc Hw].
    by rewrite (IH Hw), (is_lower_not_space c Hc).
Qed.

Lemma code_eqb_eq a b : (Str.code a =? Str.code b) = true → a = b.
Proof.
  intros H. apply Nat.eqb_eq in H. unfold Str.code in H.
  rewrite <- (ascii_nat_embedding a), <- (ascii_nat_embedding b). by rewrite H.
Qed.

Lemma starts_with_chars p s q :
  Str.starts_with p s = true → all_chars q s = true → all_chars q p = true.
Proof.
  revert s. induction p as [|a p IH]; intros [|b s]; simpl; try done.
  intros Hp Hs. apply andb_true_iff in Hp as [Hab Hp].
  apply andb_true_iff in Hs as [Hb Hs]. apply code_eqb_eq in Hab as ->.
  by rewrite Hb, (IH s).
Qed.

Lemma includes_chars p s q :
  Str.includes p s = true → all_chars q s = true → all_chars q p = true.
Proof.
  induction s as [|b s IH]; simpl.
  - rewrite orb_false_r. intros Hp _. by destruct p.
  - intros Hp Hs. apply orb_true_iff in Hp as [Hp|Hp].
    + by apply (starts_with_chars p (String b s)).
    + apply andb_true_iff in Hs as [_ Hs]. by apply IH.
Qed.

(** A single lowercase word is never a question about the engine itself. *)
Lemma lowercase_word_not_meta w :
  all_chars Str.is_lower w = true → isMetaQuery w = false.
Proof.
  intros Hw. unfold isMetaQuery.
  destruct (lowercase_word_clean w Hw) as (-> & _).
  apply not_true_is_false. intros Hex.
  apply existsb_exists in Hex as (p & Hp & Hinc).
  pose proof (includes_chars p w Str.is_lower Hinc Hw) as Hlow.
  unfold metaPatterns in Hp. simpl in Hp.
  repeat (destruct Hp as [<-|Hp]; [discriminate Hlow|]). exact Hp.
Qed.

(** X24: a word of lowercase letters that the loaded payload defines is
    answered with its definition, formatted from the last dictionary record
    of the payload for that word, tagged Dictionary, recorded in the history
    and not written to the response cache. *)
Theorem dictionary_word_defined :
  ∀ items st0 w entry fuel rnd now fetch,
    let st := (init (Some items) st0).2 in
    all_chars Str.is_lower w = true →
    last (omap (definition_of_item w) items) = Some entry →
    JsMap.get w (responseCache st0) = None →
    dict_word entry = w ∧
    generateResponse fuel rnd now fetch w st
    = Some (mkResponse ("**" +:+ w +:+ "** (" +:+ dict_pos entry +:+ "): "
                        +:+ dict_def entry) [Tag "Dictionary"],
            addToHistory now w
              ("**" +:+ w +:+ "** (" +:+ dict_pos entry +:+ "): "
               +:+ dict_def entry) st).
Proof.
  intros items st0 w entry fuel rnd now fetch st Hw Hlast Hmiss.
  assert (dict_word entry = w) as Hword.
  { apply last_Some in Hlast as [l' Hl].
    assert (entry ∈ omap (definition_of_item w) items) as Hin.
    { rewrite Hl. apply elem_of_app. right. left. }
    apply list_elem_of_omap in Hin as (item & _ & Hitem).
    destruct item as [w' p d|]; simpl in Hitem; [|discriminate].
    destruct (String.eqb_spec w w') as [->|]; [|discriminate].
    by injection Hitem as <-. }
  split; [exact Hword|].
  destruct (lowercase_word_clean w Hw) as (Hlower & Hfilter & Htrim).
  assert (dictionary st !! w = Some entry) as Hdict.
  { subst st. simpl. rewrite foldl_load_dictionary. by rewrite Hlast. }
  assert (responseCache st = responseCache st0) as Hcache.
  { subst st. simpl.
    by destruct (foldl_load_session items (set_corpus [] ∅ ∅ st0))
      as (_ & _ & _ & -> & _). }
  unfold generateResponse.
  replace (isReady st) with true by reflexivity. simpl negb. cbv iota.
  rewrite Hlower, Htrim, Hcache, Hmiss, (lowercase_word_not_meta w Hw).
  unfold checkDictionaryInquiry. cbv zeta.
  rewrite Hlower, Hfilter, Htrim, Hdict, Hword. reflexivity.
Qed.

Lemma dictionary_word_defined_witness :
  generateResponse 0 (λ _, 0%Q) 5 (λ _, None) "banana"
    (init (Some [DictItem "banana" "verb" "old"; QAItem "what is rust" "A language.";
                 DictItem "banana" "noun" "a fruit"]) GuahhEngine).2
  = Some (mkResponse "**banana** (noun): a fruit" [Tag "Dictionary"],
          addToHistory 5 "banana" "**banana** (noun): a fruit"
            (init (Some [DictItem "banana" "verb" "old";
                         QAItem "what is rust" "A language.";
                         DictItem "banana" "noun" "a fruit"]) GuahhEngine).2).
Proof.
  apply (dictionary_word_defined
           [DictItem "banana" "verb" "old"; QAItem "what is rust" "A language.";
            DictItem "banana" "noun" "a fruit"]
           GuahhEngine "banana" (mkDict "banana" "noun" "a fruit"));
    reflexivity.
Defined.

(** ** Tokens tokenise to themselves *)

Lemma string_app_assoc (a b c : string) : (a +:+ b) +:+ c = a +:+ (b +:+ c).
Proof.
  induction a as [|x a IH]; [reflexivity|].
  change (String x ((a +:+ b) +:+ c) = String x (a +:+ (b +:+ c))).
  by rewrite IH.
Qed.

Lemma string_app_nil_r (a : string) : a +:+ EmptyString = a.
Proof.
  induction a as [|x a IH]; [reflexivity|].
  change (String x (a +:+ EmptyString) = String x a). by rewrite IH.
Qed.

Lemma is_term_char_classes c :
  is_term_char c = true → Str.is_space c = false ∧ Str.is_upper c = false.
Proof.
  unfold is_term_char, Str.is_lower, Str.is_digit, Str.is_space, Str.is_upper,
    Str.between.
  destruct (Nat.leb_spec 97 (Str.code c)), (Nat.leb_spec (Str.code c) 122),
    (Nat.leb_spec 48 (Str.code c)), (Nat.leb_spec (Str.code c) 57),
    (Nat.leb_spec 9 (Str.code c)), (Nat.leb_spec (Str.code c) 13),
    (Nat.leb_spec 65 (Str.code c)), (Nat.leb_spec (Str.code c) 90),
    (Nat.eqb_spec (Str.code c) 32); simpl; try done; lia.
Qed.

(** Reading a word without whitespace extends the current piece. *)
Lemma split_ws_from_word w cur in_sep s :
  all_chars is_term_char w = true → w ≠ EmptyString →
  Str.split_ws_from cur in_sep (w +:+ s) = Str.split_ws_from (cur +:+ w) false s.
Proof.
  revert cur in_sep. induction w as [|c w IH]; intros cur in_sep Hw Hne; [done|].
  simpl in Hw. apply andb_true_iff in Hw as [Hc Hw].
  destruct (is_term_char_classes c Hc) as [Hsp _].
  simpl. rewrite Hsp. destruct w as [|c' w'].
  - reflexivity.
  - rewrite (IH (Str.snoc cur c) false Hw) by done.
    unfold Str.snoc. by rewrite string_app_assoc.
Qed.

Lemma split_ws_from_join ws w in_sep :
  Forall (λ w, all_chars is_term_char w = true ∧ w ≠ EmptyString) (w :: ws) →
  Str.split_ws_from EmptyString in_sep (Str.join " " (w :: ws)) = w :: ws.
Proof.
  revert w in_sep. induction ws as [|w2 ws IH]; intros w in_sep Hall.
  - inversion_clear Hall as [|? ? [Hw Hne] _]. simpl.
    replace (Str.split_ws_from EmptyString in_sep w)
      with (Str.split_ws_from EmptyString in_sep (w +:+ EmptyString))
      by (by rewrite string_app_nil_r).
    rewrite split_ws_from_word by done. reflexivity.
  - inversion_clear Hall as [|? ? [Hw Hne] Hrest].
    change (Str.join " " (w :: w2 :: ws))
      with (w +:+ String " " (Str.join " " (w2 :: ws))).
    rewrite split_ws_from_word by done. simpl. f_equal. by apply IH.
Qed.

Lemma all_chars_join (p : ascii → bool) ws :
  p " "%char = true → Forall (λ w, all_chars p w = true) ws →
  all_chars p (Str.join " " ws) = true.
Proof.
  intros Hsp. induction 1 as [|w ws Hw Hall IH]; [reflexivity|].
  destruct ws as [|w2 ws]; [exact Hw|].
  change (Str.join " " (w :: w2 :: ws))
    with (w +:+ String " " (Str.join " " (w2 :: ws))).
  rewrite all_chars_app, Hw. cbn [all_chars andb]. by rewrite Hsp, IH.
Qed.

Lemma all_chars_impl (p q : ascii → bool) s :
  (∀ c, p c = true → q c = true) → all_chars p s = true → all_chars q s = true.
Proof.
  intros Hpq. induction s as [|c s IH]; simpl; [done|].
  intros H. apply andb_true_iff in H as [Hc Hs]. by rewrite (Hpq c Hc), IH.
Qed.

Lemma toLowerCase_fixed s :
  all_chars (λ c, negb (Str.is_upper c)) s = true → Str.toLowerCase s = s.
Proof.
  unfold Str.toLowerCase. induction s as [|c s IH]; simpl; [done|].
  intros H. apply andb_true_iff in H as [Hc Hs]. rewrite (IH Hs).
  unfold Str.lower_char. by destruct (Str.is_upper c).
Qed.

Lemma filter_chars_fixed keep s :
  all_chars keep s = true → Str.filter_chars keep s = s.
Proof.
  induction s as [|c s IH]; simpl; [done|].
  intros H. apply andb_true_iff in H as [Hc Hs]. by rewrite Hc, (IH Hs).
Qed.

(** X25: index terms joined by single spaces tokenise back to themselves:
    for every list of words longer than two characters and made of
    lowercase letters and digits, [tokenize] of their join is the list. *)
Theorem tokenize_join_terms :
  ∀ ws,
    Forall (λ w, 2 < String.length w ∧ all_chars is_term_char w = true) ws →
    tokenize (Str.join " " ws) = ws.
Proof.
  intros ws Hall. destruct ws as [|w ws]; [reflexivity|].
  assert (Forall (λ w, all_chars is_term_char w = true ∧ w ≠ EmptyString)
            (w :: ws)) as Hwords.
  { eapply Forall_impl; [exact Hall|]. intros w' [Hlen Hw']. split; [exact Hw'|].
    intros ->. simpl in Hlen. lia. }
  set (text := Str.join " " (w :: ws)).
  assert (all_chars (λ c, is_term_char c || Str.is_space c) text = true) as Hchars.
  { apply all_chars_join; [reflexivity|].
    eapply Forall_impl; [exact Hall|]. intros w' [_ Hw'].
    eapply all_chars_impl; [|exact Hw']. intros c Hc. by rewrite Hc. }
  unfold tokenize.
  assert (Str.is_empty text = false) as ->.
  { subst text. inversion_clear Hall as [|? ? [Hlen _] _].
    destruct w as [|c w]; [simpl in Hlen; lia|]. by destruct ws. }
  rewrite toLowerCase_fixed.
  2:{ eapply all_chars_impl; [|exact Hchars]. intros c Hc.
      apply orb_true_iff in Hc as [Hc|Hc].
      - by destruct (is_term_char_classes c Hc) as [_ ->].
      - unfold Str.is_space, Str.is_upper, Str.between in *.
        destruct (Nat.leb_spec 9 (Str.code c)), (Nat.leb_spec (Str.code c) 13),
          (Nat.leb_spec 65 (Str.code c)), (Nat.leb_spec (Str.code c) 90),
          (Nat.eqb_spec (Str.code c) 32); simpl in *; try done; lia. }
  rewrite filter_chars_fixed.
  2:{ eapply all_chars_impl; [|exact Hchars]. intros c Hc.
      unfold is_term_char in Hc. exact Hc. }
  unfold Str.split_ws. subst text. rewrite split_ws_from_join by exact Hwords.
  clear Hwords Hchars. induction Hall as [|w' ws' [Hlen _] _ IH]; [reflexivity|].
  rewrite filter_cons, decide_True by exact Hlen. by rewrite IH.
Qed.

Lemma tokenize_join_terms_witness :
  tokenize (Str.join " " ["great"; "rust2"; "language"])
  = ["great"; "rust2"; "language"].
Proof.
  apply tokenize_join_terms.
  repeat constructor; simpl; lia.
Defined.

(** ** Query preprocessing *)

Lemma replace_word_from_chars (p : ascii → bool) pat rep prev_word skip s :
  all_chars p rep = true → all_chars p s = true →
  all_chars p (Str.replace_word_from pat rep prev_word skip s) = true.
Proof.
  intros Hrep. revert prev_word skip.
  induction s as [|c s IH]; intros prev_word skip Hs; [reflexivity|].
  simpl in Hs. apply andb_true_iff in Hs as [Hc Hs].
  cbn [Str.replace_word_from]. destruct skip as [|k]; [|by apply IH].
  destruct (_ && _).
  - rewrite all_chars_app, Hrep. by apply IH.
  - cbn [all_chars]. rewrite Hc. by apply IH.
Qed.

Lemma trim_chars (p : ascii → bool) s :
  all_chars p s = true → all_chars p (Str.trim s) = true.
Proof.
  intros Hs. unfold Str.trim.
  assert (all_chars p (Str.trimStart s) = true) as Hstart.
  { induction s as [|c s IH]; [reflexivity|]. simpl in *.
    apply andb_true_iff in Hs as [Hc Hs].
    destruct (Str.is_space c); [by apply IH|]. simpl. by rewrite Hc, Hs. }
  clear Hs. induction (Str.trimStart s) as [|c t IH]; [reflexivity|].
  simpl in *. apply andb_true_iff in Hstart as [Hc Ht].
  destruct (_ && _); [reflexivity|]. simpl. by rewrite Hc, IH.
Qed.

Lemma toLowerCase_no_upper s :
  all_chars (λ c, negb (Str.is_upper c)) (Str.toLowerCase s) = true.
Proof.
  unfold Str.toLowerCase. induction s as [|c s IH]; [reflexivity|].
  simpl. rewrite IH, andb_true_r. unfold Str.lower_char.
  destruct (Str.is_upper c) eqn:Hup; [|by rewrite Hup].
  unfold Str.is_upper, Str.between, Str.code in *.
  apply andb_true_iff in Hup as [H1 H2].
  apply Nat.leb_le in H1. apply Nat.leb_le in H2.
  rewrite nat_ascii_embedding by lia.
  destruct (Nat.leb_spec 65 (nat_of_ascii c + 32)),
    (Nat.leb_spec (nat_of_ascii c + 32) 90); simpl; try done; lia.
Qed.

(** X27: the preprocessed query has no uppercase letter, whatever the query:
    lowercasing, trimming and the four abbreviation expansions leave none, so
    the case-sensitive long-form test and the tokenizer see lowercase
    text. *)
Theorem preprocessQuery_lowercase :
  ∀ query,
    all_chars (λ c, negb (Str.is_upper c)) (preprocessQuery query) = true.
Proof.
  intros query. unfold preprocessQuery, Str.replace_word. cbv zeta.
  repeat (apply replace_word_from_chars; [reflexivity|]).
  apply trim_chars, toLowerCase_no_upper.
Qed.
